(** * dfcpub: the AuthN server and the proxy-side token list

    A shallow embedding of the authentication code of dfcpub:

    - package [dfc], file [dfc/auth.go]: [decryptToken] and [newAuthList],
      which turn the token list pushed by AuthN into the proxy's table of
      valid tokens;
    - the AuthN server (package [main]): the [proxy] record with
      [detectPrimary], and the [userManager] with [newUserManager],
      [addUser], [delUser], [issueToken], [revokeToken], [userByToken] and
      [sendTokensToProxy].

    Go maps that the code only looks up, inserts into and deletes from are
    [gmap]s.  The token table [userManager.tokens] and the two member tables
    of a cluster map are also ranged over, with a [break] or [return] at the
    first hit, so they are association lists: the order of the list is the
    order in which one [range] loop visits the entries.  Go picks that order
    afresh for every loop; a theorem that holds for every list therefore
    holds for every order the runtime may choose.

    Library calls (jwt-go, base64, time formatting, the file system and the
    HTTP client) are fields of a class; every theorem holds for all their
    instances.  [time.Now()] is a clock [nat -> Time]: the k-th reading a
    call makes is [clk k]. *)

From Stdlib Require Import ZArith Lia.
From stdpp Require Import gmap strings list.

(** ** Machine integers and time *)

Definition int64_min : Z := (- 2 ^ 63)%Z.
Definition int64_max : Z := (2 ^ 63 - 1)%Z.

Definition is_int64 (z : Z) : Prop := (int64_min ≤ z ≤ int64_max)%Z.

(** Two's-complement wrap-around of Go's [int64]. *)
Definition wrap64 (z : Z) : Z := ((z + 2 ^ 63) `mod` 2 ^ 64 - 2 ^ 63)%Z.

(** [v++] on an [int64]. *)
Definition incr64 (v : Z) : Z := wrap64 (v + 1).

(** An instant of [time.Time], as a number on the time line. *)
Definition Time : Type := Z.

(** [t.Before(u)] and [t.After(u)]. *)
Definition Before (t u : Time) : bool := (t <? u)%Z.
Definition After (t u : Time) : bool := (u <? t)%Z.

(** The successive readings of [time.Now()] inside one call. *)
Definition Clock : Type := nat → Time.

(** ** Errors

    Every [fmt.Errorf] of the code is a constructor; [errorString] gives the
    text the Go code formats. *)

Inductive error : Type :=
  | ErrInvalidCredentials
  | ErrInvalidUserOrPassword
  | ErrAlreadyRegistered (userID : string)
  | ErrUserNotExist (userID : string)
  | ErrSaveUsers (cause : string)
  | ErrGenerateToken (cause : string)
  | ErrTokenExpired
  | ErrInvalidToken
  | ErrTokenNotFound
  | ErrEmptyClusterMap
  | ErrDetectFailed
  | ErrLibrary (msg : string).

Definition errorString (e : error) : string :=
  match e with
  | ErrInvalidCredentials => "Invalid credentials"
  | ErrInvalidUserOrPassword => "Invalid username or password"
  | ErrAlreadyRegistered userID => "User '" +:+ userID +:+ "' already registered"
  | ErrUserNotExist userID => "User " +:+ userID +:+ " does not exist"
  | ErrSaveUsers cause => "UserManager: Failed to save user list: " +:+ cause
  | ErrGenerateToken cause => "failed to generate token: " +:+ cause
  | ErrTokenExpired => "Token expired"
  | ErrInvalidToken => "Invalid token"
  | ErrTokenNotFound => "Token not found"
  | ErrEmptyClusterMap => "Cluster map is empty"
  | ErrDetectFailed => "Detecting primary proxy failed"
  | ErrLibrary msg => msg
  end.

(** The error taxonomy of the specification. *)
Inductive ErrClass : Type :=
  | InvalidCredentials | AlreadyRegistered | UnknownUser | TokenExpired
  | InvalidToken | TokenNotFound | EmptyClusterMap | PrimaryDetectionFailed
  | PersistenceFailure | SigningFailure | LibraryFailure.

Definition classify (e : error) : ErrClass :=
  match e with
  | ErrInvalidCredentials | ErrInvalidUserOrPassword => InvalidCredentials
  | ErrAlreadyRegistered _ => AlreadyRegistered
  | ErrUserNotExist _ => UnknownUser
  | ErrSaveUsers _ => PersistenceFailure
  | ErrGenerateToken _ => SigningFailure
  | ErrTokenExpired => TokenExpired
  | ErrInvalidToken => InvalidToken
  | ErrTokenNotFound => TokenNotFound
  | ErrEmptyClusterMap => EmptyClusterMap
  | ErrDetectFailed => PrimaryDetectionFailed
  | ErrLibrary _ => LibraryFailure
  end.

(** ** Early return on error

    [let? x := e in k] is Go's [x, err := e; if err != nil { return nil, err }; k],
    and [o ?? err] turns a failed type assertion or parse into [err]. *)

Definition bindE {A B : Type} (m : A + error) (k : A → B + error) : B + error :=
  match m with
  | inl a => k a
  | inr err => inr err
  end.

Definition orErr {A : Type} (o : option A) (err : error) : A + error :=
  match o with
  | Some a => inl a
  | None => inr err
  end.

Notation "'let?' x ':=' m 'in' k" := (bindE m (λ x, k))
  (at level 10, x name, m at level 100, k at level 200,
   format "'[v' 'let?'  x  :=  m  'in'  '/' k ']'").
Infix "??" := orErr (at level 60).

Definition isErr {A : Type} (r : A + error) : Prop :=
  match r with
  | inl _ => False
  | inr _ => True
  end.

(** ** The jwt-go interface *)

Module Jwt.

(** A value of type [interface{}] stored in [jwt.MapClaims], by dynamic
    type.  [VStringMap] is a [map[string]string]; [VObject] is the
    [map[string]interface{}] that decoding a JSON object produces. *)
#[local] Unset Elimination Schemes.
Inductive ClaimVal : Type :=
  | VNil
  | VBool (b : bool)
  | VNumber
  | VString (s : string)
  | VArray (items : list ClaimVal)
  | VObject (fields : list (string * ClaimVal))
  | VStringMap (m : gmap string string).
#[local] Set Elimination Schemes.

(** [jwt.MapClaims], a [map[string]interface{}]. *)
Abbreviation MapClaims := (gmap string ClaimVal).

Inductive SigningMethod : Type :=
  | SigningMethodHMAC (alg : string)
  | SigningMethodRSA (alg : string)
  | SigningMethodECDSA (alg : string)
  | SigningMethodNone.

(** The fields of [jwt.Token] the code reads.  [Claims] is [None] when the
    dynamic type of [token.Claims] is not [jwt.MapClaims]. *)
Record Token : Type := mkToken {
  Method : SigningMethod;
  Claims : option MapClaims;
  Valid : bool
}.

(** [v.(string)] *)
Definition asString (v : option ClaimVal) : option string :=
  match v with
  | Some (VString s) => Some s
  | _ => None
  end.

(** [v.(map[string]string)] *)
Definition asStringMap (v : option ClaimVal) : option (gmap string string) :=
  match v with
  | Some (VStringMap m) => Some m
  | _ => None
  end.

(** The library calls: [jwt.Parse] with its key function,
    [jwt.NewWithClaims(jwt.SigningMethodHS256, claims).SignedString(key)],
    and [time.Parse] and [Time.Format] with layout [time.RFC822]. *)
Class Lib : Type := {
  Parse : string → (Token → string + error) → Token + error;
  SignedString : MapClaims → string → string + error;
  parseRFC822 : string → option Time;
  formatRFC822 : Time → string
}.

(** The timestamp a claim carries, if it is a string that [time.Parse]
    accepts. *)
Definition timestamp `{!Lib} (v : option ClaimVal) : option Time :=
  asString v ≫= parseRFC822.

(** The key function both [decryptToken]s pass to [jwt.Parse]. *)
Definition keyFunc (secret : string) (token : Token) : string + error :=
  match Method token with
  | SigningMethodHMAC _ => inl secret
  | _ => inr (ErrLibrary "Unexpected signing method")
  end.

End Jwt.

(** ** Package dfc: auth.go *)

Module Dfc.
Import Jwt.

(** [TokenList]: the list of tokens pushed by AuthN after any token change. *)
Record TokenList : Type := mkTokenList {
  Tokens : list string;
  Version : Z
}.

Record authRec : Type := mkAuthRec {
  userID : string;
  issued : Time;
  expires : Time;
  creds : gmap string string
}.

(** [authList], keyed by the token string. *)
Abbreviation authList := (gmap string authRec).

Section auth.
Context `{!Lib}.
(** [ctx.config.Auth.Secret] *)
Variable Secret : string.

Definition decryptToken (tokenStr : string) : authRec + error :=
  let? token := Parse tokenStr (keyFunc Secret) in
  match Claims token, Valid token with
  | Some claims, true =>
    let? username := asString (claims !! "username") ?? ErrInvalidToken in
    let? issueStr := asString (claims !! "issued") ?? ErrInvalidToken in
    let? issuedAt := parseRFC822 issueStr ?? ErrInvalidToken in
    let? expireStr := asString (claims !! "expires") ?? ErrInvalidToken in
    let? expiresAt := parseRFC822 expireStr ?? ErrInvalidToken in
    inl {| userID := username;
           issued := issuedAt;
           expires := expiresAt;
           creds := default ∅ (asStringMap (claims !! "creds")) |}
  | _, _ => inr ErrInvalidToken
  end.

(** The loop of [newAuthList]: [auth] is the table built so far. *)
Fixpoint decryptAll (tokens : list string) (auth : authList)
  : authList + error :=
  match tokens with
  | [] => inl auth
  | tokenStr :: rest =>
    let? rec := decryptToken tokenStr in
    decryptAll rest (<[tokenStr := rec]> auth)
  end.

(** The three results of [newAuthList]; a [nil] [authList] is [None],
    a [nil] error is [None]. *)
Definition newAuthList (tokenList : option TokenList)
  : option authList * Z * option error :=
  match tokenList with
  | None => (Some ∅, 1%Z, None)
  | Some tl =>
    if decide (length (Tokens tl) = 0) then (Some ∅, 1%Z, None)
    else match decryptAll (Tokens tl) ∅ with
         | inr err => (None, 0%Z, Some err)
         | inl auth => (Some auth, Version tl, None)
         end
  end.

End auth.

(** Modelled from the spec: the declarations of [Smap] and [daemonInfo]
    are in a file of package [dfc] that is not at hand.  The specification
    describes the cluster snapshot as the primary coordinator's address
    plus the known proxy-role and storage-role members, each with an
    identity and a reachable address; [detectPrimary] and [hrw.go] read
    the fields [ProxySI], [Pmap], [Tmap] and [DirectURL].  The two member
    maps are ranged over, hence association lists keyed by daemon ID. *)
Record daemonInfo : Type := mkDaemonInfo {
  DaemonID : string;
  DirectURL : string
}.

Record Smap : Type := mkSmap {
  ProxySI : daemonInfo;
  Pmap : list (string * daemonInfo);
  Tmap : list (string * daemonInfo)
}.

End Dfc.

(** ** Go maps that are ranged over

    An association list in the order of one [range] loop.  Keys are
    unique in a well-formed table. *)

Section rangedMap.
Context {V : Type}.

(** [v, ok := m[id]] *)
Fixpoint rlookup (id : string) (m : list (string * V)) : option V :=
  match m with
  | [] => None
  | (k, v) :: rest => if decide (k = id) then Some v else rlookup id rest
  end.

(** [delete(m, id)] *)
Definition rdelete (id : string) (m : list (string * V)) : list (string * V) :=
  filter (λ kv, kv.1 ≠ id) m.

(** [m[id] = v] *)
Definition rinsert (id : string) (v : V) (m : list (string * V))
  : list (string * V) :=
  rdelete id m ++ [(id, v)].

Definition wfMap (m : list (string * V)) : Prop := NoDup m.*1.

End rangedMap.

(** ** The AuthN server *)

Module AuthN.
Import Jwt.

(** *** Data *)

Record proxy : Type := mkProxy {
  Url : string;
  Smap : option Dfc.Smap;
  configPath : string
}.

Record userInfo : Type := mkUserInfo {
  UserID : string;
  Password : string;
  passwordDecoded : string;
  Creds : gmap string string
}.

(** The field [UserID] of [tokenInfo] is [tUserID] here, next to the
    [UserID] of [userInfo]. *)
Record tokenInfo : Type := mkTokenInfo {
  tUserID : string;
  Issued : Time;
  Expires : Time;
  Token : string
}.

(** The token table, keyed by user ID. *)
Abbreviation tokenMap := (list (string * tokenInfo)).

(** The two mutexes and the HTTP client carry no data of their own.  The
    field [proxy] is [mproxy] here, next to the type [proxy]; the code holds
    a pointer to the one proxy record, which this state carries along. *)
Record userManager : Type := mkUserManager {
  Path : string;
  Users : gmap string userInfo;
  tokens : tokenMap;
  version : Z;
  mproxy : proxy
}.

Definition setUsers (users : gmap string userInfo) (m : userManager) :=
  {| Path := Path m; Users := users; tokens := tokens m;
     version := version m; mproxy := mproxy m |}.

Definition setTokens (toks : tokenMap) (m : userManager) :=
  {| Path := Path m; Users := Users m; tokens := toks;
     version := version m; mproxy := mproxy m |}.

Definition setVersion (v : Z) (m : userManager) :=
  {| Path := Path m; Users := Users m; tokens := tokens m;
     version := v; mproxy := mproxy m |}.

Definition setProxy (p : proxy) (m : userManager) :=
  {| Path := Path m; Users := Users m; tokens := tokens m;
     version := version m; mproxy := p |}.

(** *** The world outside *)

Inductive StatResult : Type :=
  | StatOK
  | StatNotExist
  | StatError (msg : string).

(** What a run does to the file system and the network, in order. *)
Inductive Event : Type :=
  | EvSaveTokens (path : string) (tokenList : Dfc.TokenList)
  | EvSaveSmap (path : string) (p : proxy)
  | EvGetClusterMap (url : string)
  | EvPost (url : string) (tokenList : Dfc.TokenList).

(** Configuration ([conf.Auth]), [encoding/base64], [os.Stat],
    [dfc.LocalLoad] at the two types it is used at, [dfc.LocalSave] of the
    user file, [client.GetClusterMap], [http.NewRequest] (does the URL
    parse?) and [client.Do] (the status code of the response, or an error),
    and the two path constants [dfc.Rversion] and [dfc.Rtokens].  Saving
    the token list and the cluster map can fail too, but the code only logs
    that, so these two calls are events without a result. *)
Class Env : Type := {
  AuthSecret : string;
  ExpirePeriod : Z;
  EncodeToString : string → string;
  DecodeString : string → option string;
  Stat : string → StatResult;
  LocalLoadUsers : string → gmap string userInfo + error;
  LocalLoadTokens : string → Dfc.TokenList + error;
  LocalSaveUsers : string → gmap string userInfo → option error;
  GetClusterMap : string → Dfc.Smap + error;
  NewRequest : string → bool;
  Do : string → Dfc.TokenList → nat + error;
  Rversion : string;
  Rtokens : string
}.

Inductive Startup : Type :=
  | Fatal (msg : string)
  | Started (mgr : userManager).

(** Has the call returned, or is it still in its delivery loop when the
    fuel runs out? *)
Inductive Status : Type := Returned | Running.

Section ops.
Context `{!Lib, !Env}.

(** *** proxy *)

Definition adopt (smap : Dfc.Smap) (p : proxy) : proxy :=
  {| Url := Dfc.DirectURL (Dfc.ProxySI smap);
     Smap := Some smap;
     configPath := configPath p |}.

(** One of the two loops of [detectPrimary], over one member table:
    the cluster map it adopts, if any, and the requests it makes. *)
Fixpoint probeMembers (url : string) (members : list (string * Dfc.daemonInfo))
  : option Dfc.Smap * list Event :=
  match members with
  | [] => (None, [])
  | (_, info) :: rest =>
    if decide (Dfc.DirectURL info = url) then probeMembers url rest
    else
      let ev := EvGetClusterMap (Dfc.DirectURL info) in
      match GetClusterMap (Dfc.DirectURL info) with
      | inr _ =>
        let '(found, evs) := probeMembers url rest in (found, ev :: evs)
      | inl smap =>
        if decide (Dfc.DirectURL (Dfc.ProxySI smap) ≠ url)
        then (Some smap, [ev])
        else let '(found, evs) := probeMembers url rest in (found, ev :: evs)
      end
  end.

Definition detectPrimary (p : proxy) : proxy * option error * list Event :=
  match Smap p with
  | None => (p, Some ErrEmptyClusterMap, [])
  | Some smap =>
    if decide (length (Dfc.Pmap smap) + length (Dfc.Tmap smap) = 0)
    then (p, Some ErrEmptyClusterMap, [])
    else
      match probeMembers (Url p) (Dfc.Pmap smap) with
      | (Some found, evs) => (adopt found p, None, evs)
      | (None, evs1) =>
        match probeMembers (Url p) (Dfc.Tmap smap) with
        | (Some found, evs2) => (adopt found p, None, evs1 ++ evs2)
        | (None, evs2) => (p, Some ErrDetectFailed, evs1 ++ evs2)
        end
      end
  end.

(** *** userManager *)

(** The AuthN copy of [decryptToken]: it keeps the token string and
    does not read the [creds] claim. *)
Definition decryptToken (tokenStr : string) : tokenInfo + error :=
  let? token := Parse tokenStr (keyFunc AuthSecret) in
  match Claims token, Valid token with
  | Some claims, true =>
    let? username := asString (claims !! "username") ?? ErrInvalidToken in
    let? issueStr := asString (claims !! "issued") ?? ErrInvalidToken in
    let? issuedAt := parseRFC822 issueStr ?? ErrInvalidToken in
    let? expireStr := asString (claims !! "expires") ?? ErrInvalidToken in
    let? expiresAt := parseRFC822 expireStr ?? ErrInvalidToken in
    inl {| tUserID := username;
           Issued := issuedAt;
           Expires := expiresAt;
           Token := tokenStr |}
  | _, _ => inr ErrInvalidToken
  end.

(** The loop of [newUserManager] over the persisted token strings. *)
Fixpoint loadTokens (tokenStrs : list string) (toks : tokenMap) : tokenMap :=
  match tokenStrs with
  | [] => toks
  | tstr :: rest =>
    match decryptToken tstr with
    | inr _ => loadTokens rest toks
    | inl tinfo => loadTokens rest (rinsert (tUserID tinfo) tinfo toks)
    end
  end.

Definition decodePassword (info : userInfo) : userInfo :=
  {| UserID := UserID info;
     Password := Password info;
     passwordDecoded := default "" (DecodeString (Password info));
     Creds := Creds info |}.

Definition newUserManager (dbPath : string) (p : proxy) : Startup :=
  let mgr := {| Path := dbPath; Users := ∅; tokens := [];
                version := 1; mproxy := p |} in
  match Stat dbPath with
  | StatError msg => Fatal ("Failed to load user list: " +:+ msg)
  | StatNotExist => Started mgr
  | StatOK =>
    match LocalLoadUsers dbPath with
    | inr err => Fatal ("Failed to load user list: " +:+ errorString err)
    | inl users =>
      let mgr := setUsers users mgr in
      let mgr :=
        match LocalLoadTokens (Path mgr +:+ ".tokens") with
        | inl tokenList =>
          setTokens (loadTokens (Dfc.Tokens tokenList) (tokens mgr))
                    (setVersion (Dfc.Version tokenList) mgr)
        | inr _ => mgr
        end in
      if decide (map_Forall (λ _ info, is_Some (DecodeString (Password info)))
                            (Users mgr))
      then Started (setUsers (decodePassword <$> Users mgr) mgr)
      else Fatal "Failed to read user list"
    end
  end.

Definition saveUsers (m : userManager) : option error :=
  match LocalSaveUsers (Path m) (Users m) with
  | Some err => Some (ErrSaveUsers (errorString err))
  | None => None
  end.

Definition addUser (m : userManager) (userID userPass : string)
  : userManager * option error :=
  if decide (userID = "" ∨ userPass = "") then (m, Some ErrInvalidCredentials)
  else
    match Users m !! userID with
    | Some _ => (m, Some (ErrAlreadyRegistered userID))
    | None =>
      let m := setUsers (<[userID := {| UserID := userID;
                                        passwordDecoded := userPass;
                                        Password := EncodeToString userPass;
                                        Creds := ∅ |}]> (Users m)) m in
      let m := setTokens (rdelete userID (tokens m)) m in
      (m, saveUsers m)
    end.

(** The third component tells whether [go m.sendTokensToProxy()] ran. *)
Definition delUser (m : userManager) (userID : string)
  : userManager * option error * bool :=
  match Users m !! userID with
  | None => (m, Some (ErrUserNotExist userID), false)
  | Some _ =>
    let m := setUsers (delete userID (Users m)) m in
    let ok := bool_decide (is_Some (rlookup userID (tokens m))) in
    let m := setTokens (rdelete userID (tokens m)) m in
    let m := if ok then setVersion (incr64 (version m)) m else m in
    (m, saveUsers m, ok)
  end.

(** The second half of [issueToken]: sign and store a token issued at
    [issuedAt]. *)
Definition mintToken (issuedAt : Time) (m : userManager) (userID : string)
    (creds : gmap string string) : userManager * (string + error) * bool :=
  let expiresAt := (issuedAt + ExpirePeriod)%Z in
  let claims : MapClaims :=
    <["issued" := VString (formatRFC822 issuedAt)]>
    (<["expires" := VString (formatRFC822 expiresAt)]>
    (<["username" := VString userID]>
    (<["creds" := VStringMap creds]> ∅))) in
  match SignedString claims AuthSecret with
  | inr err => (m, inr (ErrGenerateToken (errorString err)), false)
  | inl tokenString =>
    let token := {| tUserID := userID; Issued := issuedAt;
                    Expires := expiresAt; Token := tokenString |} in
    let m := setTokens (rinsert userID token (tokens m)) m in
    let m := setVersion (incr64 (version m)) m in
    (m, inl tokenString, true)
  end.

Definition issueToken (clk : Clock) (m : userManager) (userID pwd : string)
  : userManager * (string + error) * bool :=
  match Users m !! userID with
  | None => (m, inr ErrInvalidCredentials, false)
  | Some user =>
    let creds := Creds user in
    if decide (passwordDecoded user ≠ pwd)
    then (m, inr ErrInvalidUserOrPassword, false)
    else
      match rlookup userID (tokens m) with
      | Some token =>
        if After (Expires token) (clk 0) then (m, inl (Token token), false)
        else mintToken (clk 1) (setTokens (rdelete userID (tokens m)) m)
                       userID creds
      | None => mintToken (clk 0) m userID creds
      end
  end.

(** The [range] loops of [revokeToken] and [userByToken] leave at the
    first entry whose token string is the one looked for. *)
Fixpoint findToken (token : string) (entries : tokenMap)
  : option (string * tokenInfo) :=
  match entries with
  | [] => None
  | (id, info) :: rest =>
    if decide (Token info = token) then Some (id, info)
    else findToken token rest
  end.

Definition revokeToken (m : userManager) (token : string)
  : userManager * bool :=
  match findToken token (tokens m) with
  | Some (id, _) =>
    (setVersion (incr64 (version m)) (setTokens (rdelete id (tokens m)) m),
     true)
  | None => (m, false)
  end.

Definition userByToken (clk : Clock) (m : userManager) (token : string)
  : userManager * (userInfo + error) :=
  match findToken token (tokens m) with
  | Some (id, info) =>
    if Before (Expires info) (clk 0)
    then (setTokens (rdelete id (tokens m)) m, inr ErrTokenExpired)
    else
      match Users m !! id with
      | None => (m, inr ErrInvalidToken)
      | Some user => (m, inl user)
      end
  | None => (m, inr ErrTokenNotFound)
  end.

(** The loop of [sendTokensToProxy] over the token table: [entries] are
    the entries still to visit, the k-th of them at clock reading [k];
    [toks] is the table and [out] the list built so far. *)
Fixpoint sweep (clk : Clock) (k : nat) (entries toks : tokenMap)
    (out : list string) : tokenMap * list string :=
  match entries with
  | [] => (toks, out)
  | (userID, tokenRec) :: rest =>
    if Before (Expires tokenRec) (clk k)
    then sweep clk (S k) rest (rdelete userID toks) out
    else sweep clk (S k) rest toks (out ++ [Token tokenRec])
  end.

(** The first phase of [sendTokensToProxy], under [tokenMtx]. *)
Definition snapshotTokens (clk : Clock) (m : userManager)
  : userManager * Dfc.TokenList :=
  let '(toks, out) := sweep clk 0 (tokens m) (tokens m) [] in
  (setTokens toks m, {| Dfc.Tokens := out; Dfc.Version := version m |}).

Definition deliveryFailed (r : nat + error) : bool :=
  match r with
  | inr _ => true
  | inl statusCode => bool_decide (400 ≤ statusCode)
  end.

(** The delivery loop of [sendTokensToProxy]; it may run forever, so it
    takes fuel. *)
Fixpoint deliver (fuel : nat) (p : proxy) (tokenList : Dfc.TokenList)
  : Status * proxy * list Event :=
  match fuel with
  | 0 => (Running, p, [])
  | S fuel =>
    let url := Url p +:+ "/" +:+ Rversion +:+ "/" +:+ Rtokens in
    if negb (NewRequest url) then (Returned, p, [])
    else if deliveryFailed (Do url tokenList) then
      match detectPrimary p with
      | (p, Some _, evs) => (Returned, p, EvPost url tokenList :: evs)
      | (p, None, evs) =>
        let '(status, p', evs') := deliver fuel p tokenList in
        (status, p',
         EvPost url tokenList :: evs ++ EvSaveSmap (configPath p) p :: evs')
      end
    else (Returned, p, [EvPost url tokenList])
  end.

Definition sendTokensToProxy (fuel : nat) (clk : Clock) (m : userManager)
  : Status * userManager * list Event :=
  if decide (Url (mproxy m) = "") then (Returned, m, [])
  else
    let '(m, tokenList) := snapshotTokens clk m in
    let '(status, p, evs) := deliver fuel (mproxy m) tokenList in
    (status, setProxy p m,
     EvSaveTokens (Path m +:+ ".tokens") tokenList :: evs).

(** *** Vocabulary of the statements *)

(** The addresses one loop of [detectPrimary] asks, in order: those of
    the members that are not at the tracked address. *)
Definition asked (url : string) (members : list (string * Dfc.daemonInfo))
  : list string :=
  filter (λ u, u ≠ url) ((Dfc.DirectURL ∘ snd) <$> members).

(** The addresses [detectPrimary] asks: the proxies, then the targets. *)
Definition candidates (url : string) (smap : Dfc.Smap) : list string :=
  asked url (Dfc.Pmap smap) ++ asked url (Dfc.Tmap smap).

(** The member at [u] answers, and names a primary other than [url]. *)
Definition reportsOther (url u : string) : Prop :=
  match GetClusterMap u with
  | inl smap => Dfc.DirectURL (Dfc.ProxySI smap) ≠ url
  | inr _ => False
  end.

(** The entry found at position [k] of the token table has not expired
    at the clock reading taken for it. *)
Definition liveAt (clk : Clock) (toks : tokenMap) (k : nat)
    (entry : string * tokenInfo) : Prop :=
  toks !! k = Some entry ∧ Before (Expires entry.2) (clk k) = false.

Definition hasToken (token : string) (entry : string * tokenInfo) : Prop :=
  Token entry.2 = token.

(** The entries that have not expired at one instant. *)
Definition liveTokens (now : Time) (toks : tokenMap) : tokenMap :=
  filter (λ entry, Before (Expires entry.2) now = false) toks.

(** The entries of [entries] that a sweep starting at reading [k]
    finds alive. *)
Fixpoint kept (clk : Clock) (k : nat) (entries : tokenMap) : tokenMap :=
  match entries with
  | [] => []
  | entry :: rest =>
    if Before (Expires entry.2) (clk k) then kept clk (S k) rest
    else entry :: kept clk (S k) rest
  end.

End ops.

(** *** NewProxy

    [dfc.LocalLoad] of the proxy file fills the two exported fields [Url]
    and [Smap]; [configPath] is not part of the file. *)
Class ProxyFile : Type := {
  LocalLoadProxy : string → (string * option Dfc.Smap) + error
}.

Section newProxy.
Context `{!Env, !ProxyFile}.

(** The argument [configPath] is [cfgPath] here, next to the field. *)
Definition NewProxy (cfgPath defaultUrl : string) : proxy * list Event :=
  let defProxy := {| Url := defaultUrl; Smap := None; configPath := cfgPath |} in
  match LocalLoadProxy cfgPath with
  | inr _ => (defProxy, [])
  | inl (url, smap) =>
    match detectPrimary {| Url := url; Smap := smap; configPath := "" |} with
    | (_, Some _, evs) => (defProxy, evs)
    | (p, None, evs) =>
      let p := {| Url := Url p; Smap := Smap p; configPath := cfgPath |} in
      if decide (Url p ≠ defaultUrl)
      then (p, evs ++ [EvSaveSmap cfgPath p])
      else (p, evs)
    end
  end.

End newProxy.

(** *** Sequences of calls

    One call of a public operation of the manager, and the manager it
    leaves behind.  The replication that [delUser], [issueToken] and
    [revokeToken] start runs on its own; in a sequence it is the call
    [CallSendTokens], wherever it comes. *)
Inductive call : Type :=
  | CallAddUser (userID userPass : string)
  | CallDelUser (userID : string)
  | CallIssueToken (clk : Clock) (userID pwd : string)
  | CallRevokeToken (token : string)
  | CallUserByToken (clk : Clock) (token : string)
  | CallSendTokens (fuel : nat) (clk : Clock).

Section calls.
Context `{!Lib, !Env}.

Definition after (c : call) (m : userManager) : userManager :=
  match c with
  | CallAddUser userID userPass => (addUser m userID userPass).1
  | CallDelUser userID => (delUser m userID).1.1
  | CallIssueToken clk userID pwd => (issueToken clk m userID pwd).1.1
  | CallRevokeToken token => (revokeToken m token).1
  | CallUserByToken clk token => (userByToken clk m token).1
  | CallSendTokens fuel clk => (sendTokensToProxy fuel clk m).1.2
  end.

Definition afterAll (cs : list call) (m : userManager) : userManager :=
  foldl (λ m c, after c m) m cs.

(** Every token is stored under the ID of its user, once. *)
Definition keyedByOwner (toks : tokenMap) : Prop :=
  wfMap toks ∧ ∀ entry, entry ∈ toks → entry.1 = tUserID entry.2.

(** Every token belongs to a registered user. *)
Definition ownersRegistered (m : userManager) : Prop :=
  ∀ entry, entry ∈ tokens m → is_Some (Users m !! entry.1).

(** The claims [issueToken] signs for a token issued at [issuedAt]. *)
Definition tokenClaims (issuedAt : Time) (userID : string)
    (creds : gmap string string) : MapClaims :=
  <["issued" := VString (formatRFC822 issuedAt)]>
  (<["expires" := VString (formatRFC822 (issuedAt + ExpirePeriod)%Z)]>
  (<["username" := VString userID]>
  (<["creds" := VStringMap creds]> ∅))).

(** The reading of the clock at which [issueToken] issues: the first one,
    or the second when the first was spent on a stored token. *)
Definition issueTime (clk : Clock) (m : userManager) (userID : string) : Time :=
  match rlookup userID (tokens m) with
  | Some _ => clk 1
  | None => clk 0
  end.

(** The token [issueToken] stores when signing returns [tokenString]. *)
Definition mintedToken (issuedAt : Time) (userID tokenString : string)
  : tokenInfo :=
  {| tUserID := userID; Issued := issuedAt;
     Expires := (issuedAt + ExpirePeriod)%Z; Token := tokenString |}.

Definition isPost (ev : Event) : bool :=
  match ev with
  | EvPost _ _ => true
  | _ => false
  end.

(** The address the token list is posted to. *)
Definition tokensURL (p : proxy) : string :=
  Url p +:+ "/" +:+ Rversion +:+ "/" +:+ Rtokens.

End calls.

(** *** A small world to run the code in

    A toy signing scheme ([tok-] followed by the user name), a clock
    format with three instants, an identity base64, one user file and
    one token file, and a cluster of two proxies and one target. *)
Module Sample.

Definition claimsOf (user : string) (credsVal : option ClaimVal) : MapClaims :=
  let base : MapClaims :=
    <["username" := VString user]>
    (<["issued" := VString "01 Jan 18 10:00 UTC"]>
    (<["expires" := VString "01 Jan 18 10:30 UTC"]> ∅)) in
  match credsVal with
  | Some v => <["creds" := v]> base
  | None => base
  end.

Definition table : list (string * Jwt.Token) :=
  [("tok-user1", mkToken (SigningMethodHMAC "HS256")
                   (Some (claimsOf "user1" None)) true);
   ("tok-user2", mkToken (SigningMethodHMAC "HS256")
                   (Some (claimsOf "user2" (Some (VObject [("aws", VString "aws-01")]))))
                   true);
   ("tok-user3", mkToken (SigningMethodHMAC "HS256")
                   (Some (delete "expires" (claimsOf "user3" None))) true);
   ("tok-rsa", mkToken (SigningMethodRSA "RS256")
                   (Some (claimsOf "user1" None)) true)].

#[export] Instance lib : Lib := {|
  Parse tokenStr key :=
    match rlookup tokenStr table with
    | None => inr (ErrLibrary "token contains an invalid number of segments")
    | Some token =>
      match key token with
      | inl _ => inl token
      | inr err => inr err
      end
    end;
  SignedString claims key :=
    match asString (claims !! "username") with
    | Some user => inl ("tok-" +:+ user)
    | None => inr (ErrLibrary "key is invalid")
    end;
  parseRFC822 s :=
    if decide (s = "01 Jan 18 10:00 UTC") then Some 600%Z
    else if decide (s = "01 Jan 18 10:30 UTC") then Some 630%Z
    else None;
  formatRFC822 t :=
    if decide (t = 600%Z) then "01 Jan 18 10:00 UTC"
    else if decide (t = 630%Z) then "01 Jan 18 10:30 UTC"
    else "other"
|}.

Definition node (id url : string) : string * Dfc.daemonInfo :=
  (id, Dfc.mkDaemonInfo id url).

Definition oldMap : Dfc.Smap :=
  Dfc.mkSmap (Dfc.mkDaemonInfo "p1" "http://p1")
             [node "p1" "http://p1"; node "p2" "http://p2"]
             [node "t1" "http://t1"].

Definition newMap : Dfc.Smap :=
  Dfc.mkSmap (Dfc.mkDaemonInfo "p2" "http://p2")
             [node "p2" "http://p2"]
             [node "t1" "http://t1"].

Definition storedUsers : gmap string userInfo :=
  <["user1" := mkUserInfo "user1" "pass2" "" ∅]> ∅.

#[export] Instance env : Env := {|
  AuthSecret := "secret";
  ExpirePeriod := 30%Z;
  EncodeToString s := s;
  DecodeString s := Some s;
  Stat path := if decide (path = "/tmp/users.json") then StatOK else StatNotExist;
  LocalLoadUsers path := inl storedUsers;
  LocalLoadTokens path := inl (Dfc.mkTokenList ["tok-user1"; "tok-user3"] 7%Z);
  LocalSaveUsers path users := None;
  GetClusterMap url :=
    if decide (url = "http://p2") then inl oldMap
    else if decide (url = "http://t1") then inl newMap
    else inr (ErrLibrary "connection refused");
  NewRequest url := true;
  Do url tokenList := inl 200;
  Rversion := "v1";
  Rtokens := "tokens"
|}.

Definition noProxy : proxy := mkProxy "" None "".

(** The manager that [newUserManager] returns when there is no user
    file. *)
Definition fresh : userManager :=
  mkUserManager "/tmp/none.json" ∅ [] 1%Z noProxy.

Definition user2 : userInfo := mkUserInfo "user2" "pass1" "pass1" ∅.

Definition token2 (expiresAt : Time) : tokenInfo :=
  mkTokenInfo "user2" 600%Z expiresAt "tok-user2".

(** One registered user, holding one token that expires at 630. *)
Definition oneToken : userManager :=
  mkUserManager "/tmp/none.json" (<["user2" := user2]> ∅)
                [("user2", token2 630%Z)] 4%Z noProxy.

Definition token3 (expiresAt : Time) : tokenInfo :=
  mkTokenInfo "user3" 570%Z expiresAt "tok-user3".

(** Two tokens, of which the second expires at 600. *)
Definition twoTokens : userManager :=
  mkUserManager "/tmp/none.json" (<["user2" := user2]> ∅)
                [("user2", token2 630%Z); ("user3", token3 600%Z)]
                4%Z noProxy.

(** A proxy that tracks [http://p1] and knows [oldMap]. *)
Definition tracking : proxy := mkProxy "http://p1" (Some oldMap) "/tmp/proxy.json".

(** The same world on a bad day: the user file cannot be written, the
    token file cannot be read, and the proxy at [http://p1] answers 503. *)
Definition lossy : Env := {|
  AuthSecret := "secret";
  ExpirePeriod := 30%Z;
  EncodeToString s := s;
  DecodeString s := Some s;
  Stat path := if decide (path = "/tmp/users.json") then StatOK else StatNotExist;
  LocalLoadUsers path := inl storedUsers;
  LocalLoadTokens path := inr (ErrLibrary "unexpected end of JSON input");
  LocalSaveUsers path users := Some (ErrLibrary "no space left on device");
  GetClusterMap url :=
    if decide (url = "http://p2") then inl oldMap
    else if decide (url = "http://t1") then inl newMap
    else inr (ErrLibrary "connection refused");
  NewRequest url := true;
  Do url tokenList :=
    if decide (url = "http://p1/v1/tokens") then inl 503 else inl 200;
  Rversion := "v1";
  Rtokens := "tokens"
|}.

(** The sample world after the user file was removed: no file answers
    [os.Stat], while the token file is still there, at version 7. *)
Definition orphaned : Env := {|
  AuthSecret := "secret";
  ExpirePeriod := 30%Z;
  EncodeToString s := s;
  DecodeString s := Some s;
  Stat path := StatNotExist;
  LocalLoadUsers path := inr (ErrLibrary "no such file or directory");
  LocalLoadTokens path :=
    if decide (path = "/tmp/users.json.tokens")
    then inl (Dfc.mkTokenList ["tok-user1"] 7%Z)
    else inr (ErrLibrary "no such file or directory");
  LocalSaveUsers path users := None;
  GetClusterMap url := inr (ErrLibrary "connection refused");
  NewRequest url := true;
  Do url tokenList := inl 200;
  Rversion := "v1";
  Rtokens := "tokens"
|}.

(** The manager [twoTokens] with the proxy [tracking]. *)
Definition tracked : userManager :=
  mkUserManager "/tmp/none.json" (<["user2" := user2]> ∅)
                [("user2", token2 630%Z); ("user3", token3 600%Z)]
                4%Z tracking.

(** The proxy file holds the address [http://p1] and [oldMap]. *)
#[export] Instance proxyFile : ProxyFile := {|
  LocalLoadProxy path :=
    if decide (path = "/tmp/proxy.json") then inl ("http://p1", Some oldMap)
    else inr (ErrLibrary "no such file")
|}.

End Sample.
End AuthN.

(** ** Package dfc: the proxy's table of valid tokens *)

Module DfcAuth.

Record authManager : Type := mkAuthManager {
  tokens : gmap string Dfc.authRec;
  tokensVersion : Z
}.

Definition validateToken (clk : Clock) (a : authManager) (token : string)
  : authManager * (Dfc.authRec + error) :=
  match tokens a !! token with
  | None => (a, inr ErrTokenNotFound)
  | Some auth =>
    if Before (Dfc.expires auth) (clk 0)
    then ({| tokens := delete token (tokens a);
             tokensVersion := tokensVersion a |}, inr ErrTokenExpired)
    else (a, inl auth)
  end.

(** [cloneL] appends the keys in the order of its [range] loop;
    [map_to_list] is one such order, and the statements about [cloneL]
    cover every rearrangement of it. *)
Definition cloneL (a : authManager) : Dfc.TokenList :=
  {| Dfc.Tokens := (map_to_list (tokens a)).*1;
     Dfc.Version := tokensVersion a |}.

Definition version (a : authManager) : Z := tokensVersion a.

Definition tag (a : authManager) : string := "token-list".

(** A table with the one token of [user2] of the sample world. *)
Module Sample.

Definition rec2 : Dfc.authRec := Dfc.mkAuthRec "user2" 600%Z 630%Z ∅.

Definition table : authManager :=
  mkAuthManager (<["tok-user2" := rec2]> ∅) 5%Z.

End Sample.

End DfcAuth.

(** * Properties *)

(** ** Shared lemmas *)

Lemma isErr_inl {A : Type} (a : A) : ¬ isErr (inl a : A + error).
Proof. simpl. tauto. Qed.

Lemma isErr_inr {A : Type} (err : error) : isErr (inr err : A + error).
Proof. exact I. Qed.

Lemma not_isErr_inv {A : Type} (r : A + error) : ¬ isErr r → ∃ a, r = inl a.
Proof. destruct r as [a|err]; [eauto | intros []; exact I]. Qed.

(** ** Package dfc *)

Section dfc_facts.
Import Jwt.
Context `{!Lib}.
Variable Secret : string.

(** Case analysis on the three mandatory claims. *)
Ltac by_mandatory_claims claims :=
  destruct (asString (claims !! "username")),
    (timestamp (claims !! "issued")), (timestamp (claims !! "expires")).

(** What [decryptToken] does once [jwt.Parse] has returned a valid token
    with map claims. *)
Lemma decryptToken_parsed tokenStr token claims :
  Parse tokenStr (keyFunc Secret) = inl token →
  Claims token = Some claims →
  Valid token = true →
  Dfc.decryptToken Secret tokenStr =
    match asString (claims !! "username"),
          timestamp (claims !! "issued"),
          timestamp (claims !! "expires") with
    | Some username, Some issuedAt, Some expiresAt =>
      inl {| Dfc.userID := username;
             Dfc.issued := issuedAt;
             Dfc.expires := expiresAt;
             Dfc.creds := default ∅ (asStringMap (claims !! "creds")) |}
    | _, _, _ => inr ErrInvalidToken
    end.
Proof.
  intros HP HC HV. unfold Dfc.decryptToken, timestamp.
  rewrite HP. simpl. rewrite HC, HV.
  destruct (asString (claims !! "username")) as [username|]; simpl; [|done].
  destruct (asString (claims !! "issued")) as [issueStr|]; simpl; [|done].
  destruct (parseRFC822 issueStr) as [issuedAt|]; simpl; [|done].
  destruct (asString (claims !! "expires")) as [expireStr|]; simpl; [|done].
  destruct (parseRFC822 expireStr) as [expiresAt|]; simpl; done.
Qed.

(** C10.  Once [jwt.Parse] has accepted the token, [decryptToken] fails
    exactly when the [username] claim is missing or not a string, or the
    [issued] or the [expires] claim is missing, not a string, or not a
    timestamp that [time.Parse] accepts.  The [creds] claim plays no part
    in it: two tokens whose claims differ at [creds] only fail together,
    and when the claim is missing or is not a [map[string]string] the
    record returned carries an empty credential map. *)
Theorem decryptToken_creds_never_fails tokenStr token claims :
  Parse tokenStr (keyFunc Secret) = inl token →
  Claims token = Some claims →
  Valid token = true →
  (isErr (Dfc.decryptToken Secret tokenStr) ↔
     asString (claims !! "username") = None
     ∨ timestamp (claims !! "issued") = None
     ∨ timestamp (claims !! "expires") = None)
  ∧ (∀ rec, Dfc.decryptToken Secret tokenStr = inl rec →
       Dfc.creds rec = default ∅ (asStringMap (claims !! "creds")))
  ∧ (asStringMap (claims !! "creds") = None →
       ∀ rec, Dfc.decryptToken Secret tokenStr = inl rec → Dfc.creds rec = ∅)
  ∧ (∀ tokenStr' token' claims',
       Parse tokenStr' (keyFunc Secret) = inl token' →
       Claims token' = Some claims' →
       Valid token' = true →
       delete "creds" claims' = delete "creds" claims →
       (isErr (Dfc.decryptToken Secret tokenStr')
        ↔ isErr (Dfc.decryptToken Secret tokenStr))).
Proof.
  intros HP HC HV.
  pose proof (decryptToken_parsed _ _ _ HP HC HV) as Hdec.
  assert (Hcreds : ∀ rec, Dfc.decryptToken Secret tokenStr = inl rec →
            Dfc.creds rec = default ∅ (asStringMap (claims !! "creds"))).
  { intros rec. rewrite Hdec.
    by_mandatory_claims claims; try discriminate.
    by intros [= <-]. }
  split; [|split; [exact Hcreds|split]].
  - rewrite Hdec.
    by_mandatory_claims claims; simpl; intuition (discriminate || done).
  - intros Hnone rec Hrec. rewrite (Hcreds rec Hrec), Hnone. done.
  - intros tokenStr' token' claims' HP' HC' HV' Heq.
    rewrite Hdec, (decryptToken_parsed _ _ _ HP' HC' HV').
    assert (Hk : ∀ k : string, k ≠ "creds" → claims' !! k = claims !! k).
    { intros k Hk. rewrite <- (lookup_delete_ne claims' "creds" k) by done.
      rewrite Heq. by rewrite lookup_delete_ne. }
    rewrite !Hk by done.
    by_mandatory_claims claims; simpl; tauto.
Qed.

(** The loop of [newAuthList] stops at the first token that does not
    decrypt. *)
Lemma decryptAll_fails tokens auth :
  (∃ t, t ∈ tokens ∧ isErr (Dfc.decryptToken Secret t)) →
  isErr (Dfc.decryptAll Secret tokens auth).
Proof.
  revert auth. induction tokens as [|t0 tokens IH]; intros auth (t & Hin & Herr).
  - by apply elem_of_nil in Hin.
  - simpl. destruct (Dfc.decryptToken Secret t0) as [rec|err] eqn:Hd; simpl; [|done].
    apply IH. exists t. split; [|done].
    apply elem_of_cons in Hin as [->|Hin]; [|done].
    rewrite Hd in Herr. destruct Herr.
Qed.

Lemma decryptAll_succeeds tokens auth :
  Forall (λ t, ¬ isErr (Dfc.decryptToken Secret t)) tokens →
  ∃ auth', Dfc.decryptAll Secret tokens auth = inl auth'
    ∧ ∀ t, auth' !! t =
        if decide (t ∈ tokens)
        then match Dfc.decryptToken Secret t with
             | inl rec => Some rec
             | inr _ => None
             end
        else auth !! t.
Proof.
  revert auth. induction tokens as [|t0 tokens IH]; intros auth Hall.
  - exists auth. split; [done|]. intros t.
    destruct (decide (t ∈ [])) as [Hin|]; [by apply elem_of_nil in Hin|done].
  - apply Forall_cons in Hall as [H0 Hall]. simpl.
    destruct (not_isErr_inv _ H0) as [rec Hrec]. rewrite Hrec. simpl.
    destruct (IH (<[t0:=rec]> auth) Hall) as (auth' & Heq & Hlook).
    exists auth'. split; [done|]. intros t. rewrite Hlook.
    destruct (decide (t ∈ tokens)) as [Hin|Hnin].
    + rewrite decide_True by (by apply elem_of_cons; right). done.
    + destruct (decide (t = t0)) as [->|Hne].
      * rewrite decide_True by (by apply elem_of_cons; left).
        by rewrite lookup_insert_eq, Hrec.
      * rewrite decide_False by (rewrite elem_of_cons; tauto).
        by rewrite lookup_insert_ne.
Qed.

(** C9.  [newAuthList] is all-or-nothing: a [nil] or empty token list
    gives an empty table, version 1 and no error; if any token of the list
    fails to decrypt, the result is an error, a [nil] table and version 0;
    and when every token decrypts the table holds exactly the tokens of the
    list, each with its decrypted record, under the version of the list. *)
Theorem newAuthList_all_or_nothing (tokenList : option Dfc.TokenList) :
  (tokenList = None ∨ (∃ tl, tokenList = Some tl ∧ Dfc.Tokens tl = []) →
     Dfc.newAuthList Secret tokenList = (Some ∅, 1%Z, None))
  ∧ (∀ tl, tokenList = Some tl →
       (∃ t, t ∈ Dfc.Tokens tl ∧ isErr (Dfc.decryptToken Secret t)) →
       ∃ err, Dfc.newAuthList Secret tokenList = (None, 0%Z, Some err))
  ∧ (∀ tl, tokenList = Some tl →
       Dfc.Tokens tl ≠ [] →
       Forall (λ t, ¬ isErr (Dfc.decryptToken Secret t)) (Dfc.Tokens tl) →
       ∃ auth, Dfc.newAuthList Secret tokenList = (Some auth, Dfc.Version tl, None)
         ∧ (∀ t, is_Some (auth !! t) ↔ t ∈ Dfc.Tokens tl)
         ∧ (∀ t rec, auth !! t = Some rec → Dfc.decryptToken Secret t = inl rec)).
Proof.
  split; [|split].
  - intros [->|(tl & -> & Hnil)]; [done|].
    unfold Dfc.newAuthList. rewrite Hnil. done.
  - intros tl -> Hbad. unfold Dfc.newAuthList.
    destruct (decide (length (Dfc.Tokens tl) = 0)) as [Hlen|_].
    + apply nil_length_inv in Hlen. destruct Hbad as (t & Hin & _).
      rewrite Hlen in Hin. by apply elem_of_nil in Hin.
    + pose proof (decryptAll_fails _ ∅ Hbad) as Herr.
      destruct (Dfc.decryptAll Secret (Dfc.Tokens tl) ∅) as [auth|err];
        [destruct Herr | by exists err].
  - intros tl -> Hne Hall. unfold Dfc.newAuthList.
    rewrite decide_False by (by intros ?%nil_length_inv).
    destruct (decryptAll_succeeds _ ∅ Hall) as (auth & -> & Hlook).
    exists auth. split; [done|]. split.
    + intros t. rewrite Hlook. destruct (decide (t ∈ Dfc.Tokens tl)) as [Hin|Hnin].
      * split; [done|]. intros _.
        rewrite Forall_forall in Hall.
        destruct (not_isErr_inv _ (Hall t Hin)) as [rec ->]. by eexists.
      * rewrite lookup_empty. split; [by intros [? [=]] | done].
    + intros t rec. rewrite Hlook.
      destruct (decide (t ∈ Dfc.Tokens tl)); [|by rewrite lookup_empty].
      destruct (Dfc.decryptToken Secret t); congruence.
Qed.

End dfc_facts.

(** ** Machine integers *)

Lemma incr64_succ (v : Z) : is_int64 v → (v < int64_max)%Z → incr64 v = (v + 1)%Z.
Proof.
  unfold is_int64, incr64, wrap64, int64_min, int64_max. intros Hr Hlt.
  rewrite Z.mod_small; lia.
Qed.

Lemma incr64_max : incr64 int64_max = int64_min.
Proof. reflexivity. Qed.

Lemma incr64_ne (v : Z) : is_int64 v → incr64 v ≠ v.
Proof.
  intros Hr. destruct (decide (v = int64_max)) as [->|Hne].
  - rewrite incr64_max. done.
  - rewrite incr64_succ; [lia | done |].
    unfold is_int64 in Hr. lia.
Qed.

Lemma incr64_is_int64 (v : Z) : is_int64 (incr64 v).
Proof.
  unfold is_int64, incr64, wrap64, int64_min, int64_max.
  pose proof (Z.mod_pos_bound (v + 1 + 2 ^ 63) (2 ^ 64)). lia.
Qed.

(** ** Ranged maps *)

Section rangedMap_facts.
Context {V : Type}.
Implicit Types (m : list (string * V)) (id : string) (v : V).

Lemma elem_of_rdelete m id (entry : string * V) :
  entry ∈ rdelete id m ↔ entry ∈ m ∧ entry.1 ≠ id.
Proof. unfold rdelete. rewrite list_elem_of_filter. tauto. Qed.

Lemma rlookup_Some_elem m id v : rlookup id m = Some v → (id, v) ∈ m.
Proof.
  induction m as [|[k w] m IH]; simpl; [done|].
  destruct (decide (k = id)) as [->|Hne].
  - intros [= ->]. apply elem_of_cons. by left.
  - intros H. apply elem_of_cons. right. by apply IH.
Qed.

Lemma rlookup_None m id : rlookup id m = None ↔ id ∉ m.*1.
Proof.
  induction m as [|[k w] m IH]; simpl.
  - split; [intros _; apply not_elem_of_nil | done].
  - rewrite not_elem_of_cons. destruct (decide (k = id)) as [->|Hne].
    + split; [done | intros [? _]; done].
    + rewrite IH. split; [intros ?; split; [congruence | done] | tauto].
Qed.

Lemma rdelete_absent m id : id ∉ m.*1 → rdelete id m = m.
Proof.
  unfold rdelete. induction m as [|[k w] m IH]; simpl; [done|].
  rewrite not_elem_of_cons. intros [Hne Hnin].
  rewrite filter_cons_True by (simpl; congruence).
  by rewrite IH.
Qed.

Lemma rdelete_app m1 m2 id : rdelete id (m1 ++ m2) = rdelete id m1 ++ rdelete id m2.
Proof. apply filter_app. Qed.

Lemma rlookup_rdelete m id : rlookup id (rdelete id m) = None.
Proof.
  apply rlookup_None. rewrite list_elem_of_fmap.
  intros ([k w] & -> & [_ Hne]%elem_of_rdelete). done.
Qed.

Lemma rdelete_fst_sublist m id : sublist (rdelete id m).*1 m.*1.
Proof. apply fmap_sublist, sublist_filter. Qed.

Lemma wfMap_rdelete m id : wfMap m → wfMap (rdelete id m).
Proof.
  unfold wfMap. intros Hwf.
  eapply sublist_NoDup; [exact Hwf | apply rdelete_fst_sublist].
Qed.

Lemma wfMap_unique m id v1 v2 :
  wfMap m → (id, v1) ∈ m → (id, v2) ∈ m → v1 = v2.
Proof.
  unfold wfMap. induction m as [|[k w] m IH]; simpl.
  - intros _ Hin. by apply elem_of_nil in Hin.
  - rewrite NoDup_cons. intros [Hnin Hwf] H1 H2.
    assert (Hfst : ∀ u, (id, u) ∈ m → id ∈ m.*1).
    { intros u Hu. apply list_elem_of_fmap. by exists (id, u). }
    apply elem_of_cons in H1 as [H1|H1];
      apply elem_of_cons in H2 as [H2|H2]; simplify_eq; eauto;
      destruct Hnin; eauto.
Qed.

Lemma wfMap_rinsert m id v : wfMap m → wfMap (rinsert id v m).
Proof.
  unfold wfMap, rinsert. intros Hwf. rewrite fmap_app. simpl.
  apply NoDup_app. split; [by apply wfMap_rdelete|]. split.
  - intros k Hk ->%list_elem_of_singleton.
    apply (proj1 (rlookup_None (rdelete id m) id)); [apply rlookup_rdelete | done].
  - apply NoDup_singleton.
Qed.

(** In a well-formed table, deleting a key removes the one entry that
    carries it. *)
Lemma elem_of_rdelete_wf m id v (entry : string * V) :
  wfMap m → (id, v) ∈ m →
  entry ∈ rdelete id m ↔ entry ∈ m ∧ entry ≠ (id, v).
Proof.
  intros Hwf Hin. rewrite elem_of_rdelete. destruct entry as [k w].
  split; intros [Hm Hne]; (split; [done|]); simpl in *.
  - intros [= -> ->]. done.
  - intros ->. apply Hne. f_equal. by eapply wfMap_unique.
Qed.

End rangedMap_facts.

(** ** The AuthN server *)

Section authn_facts.
Import Jwt AuthN.
Context `{!Lib, !Env}.
Implicit Types (m : userManager) (toks : tokenMap) (clk : Clock).

(** *** The search by token string *)

Lemma findToken_Some token toks id info :
  findToken token toks = Some (id, info) →
  (id, info) ∈ toks ∧ Token info = token.
Proof.
  induction toks as [|[k i] toks IH]; simpl; [done|].
  destruct (decide (Token i = token)) as [Heq|Hne].
  - intros [= -> ->]. split; [apply elem_of_cons; by left | done].
  - intros [Hin Htok]%IH. split; [apply elem_of_cons; by right | done].
Qed.

Lemma findToken_None token toks :
  findToken token toks = None ↔ ∀ entry, entry ∈ toks → ¬ hasToken token entry.
Proof.
  unfold hasToken. induction toks as [|[k i] toks IH]; simpl.
  - split; [|done]. intros _ entry Hin. by apply elem_of_nil in Hin.
  - destruct (decide (Token i = token)) as [Heq|Hne].
    + split; [done|]. intros Hall. destruct (Hall (k, i)); [|done].
      apply elem_of_cons. by left.
    + rewrite IH. split.
      * intros Hall entry [->|Hin]%elem_of_cons; [done | by apply Hall].
      * intros Hall entry Hin. apply Hall, elem_of_cons. by right.
Qed.

Lemma findToken_cases token toks :
  (∃ id info, findToken token toks = Some (id, info)
              ∧ (id, info) ∈ toks ∧ Token info = token)
  ∨ (findToken token toks = None
     ∧ ¬ ∃ entry, entry ∈ toks ∧ hasToken token entry).
Proof.
  destruct (findToken token toks) as [[id info]|] eqn:Hfind.
  - left. exists id, info. split; [done|]. by apply findToken_Some.
  - right. split; [done|]. rewrite findToken_None in Hfind.
    intros (entry & Hin & Htok). by apply (Hfind entry).
Qed.

(** *** issueToken *)

(** C3.  For a registered user with the right secret whose stored token
    expires after the current time, [issueToken] returns the stored token
    string and leaves the whole manager, hence the token table and the
    version, as it was, and starts no replication.  With an unknown user
    ID or a wrong secret it fails with an error of the invalid-credentials
    class and again leaves the manager as it was. *)
Theorem issueToken_reissue_or_reject clk m userID pwd :
  (∀ user token,
     Users m !! userID = Some user →
     passwordDecoded user = pwd →
     rlookup userID (tokens m) = Some token →
     After (Expires token) (clk 0) = true →
     issueToken clk m userID pwd = (m, inl (Token token), false))
  ∧ (Users m !! userID = None →
     ∃ err, issueToken clk m userID pwd = (m, inr err, false)
            ∧ classify err = InvalidCredentials)
  ∧ (∀ user,
     Users m !! userID = Some user →
     passwordDecoded user ≠ pwd →
     ∃ err, issueToken clk m userID pwd = (m, inr err, false)
            ∧ classify err = InvalidCredentials).
Proof.
  unfold issueToken. split; [|split].
  - intros user token -> Hpwd -> ->.
    rewrite decide_False by (intros Hne; by apply Hne). done.
  - intros ->. by exists ErrInvalidCredentials.
  - intros user -> Hpwd. rewrite decide_True by done.
    by exists ErrInvalidUserOrPassword.
Qed.

(** *** userByToken *)

(** C4.  When the token table has entries with the given token string and
    they have expired (their expiry is before the current time),
    [userByToken] fails with "Token expired", deletes such an entry from
    the table and leaves the version and the users alone.  When no entry
    has the token string, it fails with "Token not found" and changes
    nothing.  When the entries with the token string have not expired and
    their user IDs are not in the user map, it fails with "Invalid token"
    and changes nothing. *)
Theorem userByToken_failures clk m token :
  ((∃ entry, entry ∈ tokens m ∧ hasToken token entry) →
   (∀ entry, entry ∈ tokens m → hasToken token entry →
             Before (Expires entry.2) (clk 0) = true) →
   ∃ id info,
     (id, info) ∈ tokens m ∧ Token info = token
     ∧ (userByToken clk m token
        = (setTokens (rdelete id (tokens m)) m, inr ErrTokenExpired))
     ∧ ((id, info) ∉ tokens (userByToken clk m token).1)
     ∧ version (userByToken clk m token).1 = version m
     ∧ Users (userByToken clk m token).1 = Users m)
  ∧ ((¬ ∃ entry, entry ∈ tokens m ∧ hasToken token entry) →
     userByToken clk m token = (m, inr ErrTokenNotFound))
  ∧ ((∃ entry, entry ∈ tokens m ∧ hasToken token entry) →
     (∀ entry, entry ∈ tokens m → hasToken token entry →
               Before (Expires entry.2) (clk 0) = false
               ∧ Users m !! entry.1 = None) →
     userByToken clk m token = (m, inr ErrInvalidToken)).
Proof.
  unfold userByToken.
  destruct (findToken_cases token (tokens m))
    as [(id & info & -> & Hin & Htok)|[-> Hnone]].
  - split; [|split].
    + intros _ Hall. pose proof (Hall (id, info) Hin Htok) as Hb.
      simpl in Hb. rewrite Hb.
      exists id, info. simpl. repeat split; try done.
      rewrite elem_of_rdelete. simpl. tauto.
    + intros Hnone. destruct Hnone. by exists (id, info).
    + intros _ Hall. destruct (Hall (id, info) Hin Htok) as [Hb Hu].
      simpl in Hb, Hu. by rewrite Hb, Hu.
  - split; [|split]; [intros Hex; by destruct Hnone | done
                      | intros Hex; by destruct Hnone].
Qed.

(** *** revokeToken *)

(** C5.  [revokeToken] changes the manager exactly when the token table
    has an entry whose stored token string equals the argument.  In that
    case it deletes one such entry (in a well-formed table, that entry and
    no other), advances the version by one step, and starts a replication;
    otherwise it returns the manager as it was.  The version and the table
    change if and only if such an entry exists.  Only the stored string is
    compared: every entry with another string stays, whatever its user,
    issue time and expiry. *)
Theorem revokeToken_iff_stored m token :
  is_int64 (version m) →
  wfMap (tokens m) →
  ((∃ entry, entry ∈ tokens m ∧ hasToken token entry) →
   ∃ id info,
     (id, info) ∈ tokens m ∧ Token info = token
     ∧ revokeToken m token
       = (setVersion (incr64 (version m))
            (setTokens (rdelete id (tokens m)) m), true)
     ∧ (∀ entry, entry ∈ tokens (revokeToken m token).1
                 ↔ entry ∈ tokens m ∧ entry ≠ (id, info))
     ∧ version (revokeToken m token).1 = incr64 (version m)
     ∧ ((version m < int64_max)%Z →
        version (revokeToken m token).1 = (version m + 1)%Z))
  ∧ ((¬ ∃ entry, entry ∈ tokens m ∧ hasToken token entry) →
     revokeToken m token = (m, false))
  ∧ (version (revokeToken m token).1 ≠ version m
     ↔ ∃ entry, entry ∈ tokens m ∧ hasToken token entry)
  ∧ (tokens (revokeToken m token).1 ≠ tokens m
     ↔ ∃ entry, entry ∈ tokens m ∧ hasToken token entry)
  ∧ (∀ entry, entry ∈ tokens m → ¬ hasToken token entry →
              entry ∈ tokens (revokeToken m token).1).
Proof.
  intros Hv Hwf. unfold revokeToken.
  destruct (findToken_cases token (tokens m))
    as [(id & info & Hfind & Hin & Htok)|[Hfind Hnone]]; rewrite Hfind; simpl.
  - assert (Hex : ∃ entry, entry ∈ tokens m ∧ hasToken token entry)
      by (by exists (id, info)).
    assert (Hrest : ∀ entry, entry ∈ rdelete id (tokens m)
                             ↔ entry ∈ tokens m ∧ entry ≠ (id, info))
      by (intros entry; by apply elem_of_rdelete_wf).
    split; [|split; [|split; [|split; [|]]]].
    + intros _. exists id, info.
      split; [done|]. split; [done|]. split; [done|]. split; [done|].
      split; [done|]. intros Hlt. by apply incr64_succ.
    + intros Hno. by destruct Hno.
    + split; [done|]. intros _. by apply incr64_ne.
    + split; [done|]. intros _ Heq. rewrite <- Heq in Hin.
      apply Hrest in Hin. by destruct Hin.
    + intros entry Hentry Hother. apply Hrest.
      split; [done|]. intros ->. by apply Hother.
  - split; [|split; [|split; [|split; [|]]]]; try done.
    all: split; [done | intros Hex; by destruct Hnone].
Qed.

(** *** detectPrimary *)

Lemma probeMembers_app url members1 members2 :
  probeMembers url (members1 ++ members2) =
    match probeMembers url members1 with
    | (Some found, evs) => (Some found, evs)
    | (None, evs1) =>
      let '(found, evs2) := probeMembers url members2 in (found, evs1 ++ evs2)
    end.
Proof.
  induction members1 as [|[k info] members1 IH]; simpl.
  - by destruct (probeMembers url members2).
  - destruct (decide (Dfc.DirectURL info = url)); [done|].
    destruct (GetClusterMap (Dfc.DirectURL info)) as [smap|err].
    + destruct (decide (Dfc.DirectURL (Dfc.ProxySI smap) ≠ url)); [done|].
      rewrite IH. destruct (probeMembers url members1) as [[found|] evs]; [done|].
      by destruct (probeMembers url members2).
    + rewrite IH. destruct (probeMembers url members1) as [[found|] evs]; [done|].
      by destruct (probeMembers url members2).
Qed.

Lemma asked_cons url k info members :
  asked url ((k, info) :: members) =
    if decide (Dfc.DirectURL info = url) then asked url members
    else Dfc.DirectURL info :: asked url members.
Proof.
  unfold asked. rewrite fmap_cons. simpl.
  destruct (decide (Dfc.DirectURL info = url)) as [Heq|Hne].
  - by rewrite filter_cons_False by (intros Hne; by apply Hne).
  - by rewrite filter_cons_True.
Qed.

Lemma probeMembers_none url members :
  Forall (λ u, ¬ reportsOther url u) (asked url members) →
  probeMembers url members = (None, EvGetClusterMap <$> asked url members).
Proof.
  induction members as [|[k info] members IH]; [done|].
  rewrite asked_cons. simpl.
  destruct (decide (Dfc.DirectURL info = url)) as [Heq|Hne]; [done|].
  intros [Hhead Htail]%Forall_cons. unfold reportsOther in Hhead.
  destruct (GetClusterMap (Dfc.DirectURL info)) as [smap|err].
  - rewrite decide_False by done. by rewrite (IH Htail).
  - by rewrite (IH Htail).
Qed.

Lemma probeMembers_first url members before u after found :
  asked url members = before ++ u :: after →
  Forall (λ v, ¬ reportsOther url v) before →
  GetClusterMap u = inl found →
  Dfc.DirectURL (Dfc.ProxySI found) ≠ url →
  probeMembers url members = (Some found, EvGetClusterMap <$> (before ++ [u])).
Proof.
  intros Hasked Hbefore Hget Hother. revert before Hasked Hbefore.
  induction members as [|[k info] members IH]; intros before.
  - unfold asked. simpl. by destruct before.
  - rewrite asked_cons. simpl.
    destruct (decide (Dfc.DirectURL info = url)) as [Heq|Hne]; [by apply IH|].
    destruct before as [|v before]; simpl.
    + intros [= -> Hrest] _. rewrite Hget. by rewrite decide_True.
    + intros [= <- Hrest] [Hhead Htail]%Forall_cons.
      unfold reportsOther in Hhead.
      destruct (GetClusterMap (Dfc.DirectURL info)) as [smap|err].
      * rewrite decide_False by done. by rewrite (IH before).
      * by rewrite (IH before).
Qed.

Lemma candidates_asked url smap :
  candidates url smap = asked url (Dfc.Pmap smap ++ Dfc.Tmap smap).
Proof. unfold candidates, asked. by rewrite fmap_app, filter_app. Qed.

(** Both loops of [detectPrimary] are one pass over the proxies followed
    by the targets. *)
Lemma detectPrimary_one_pass p smap :
  Smap p = Some smap →
  Dfc.Pmap smap ++ Dfc.Tmap smap ≠ [] →
  detectPrimary p =
    match probeMembers (Url p) (Dfc.Pmap smap ++ Dfc.Tmap smap) with
    | (Some found, evs) => (adopt found p, None, evs)
    | (None, evs) => (p, Some ErrDetectFailed, evs)
    end.
Proof.
  intros HS Hne. unfold detectPrimary. rewrite HS.
  rewrite decide_False.
  - rewrite probeMembers_app.
    destruct (probeMembers (Url p) (Dfc.Pmap smap)) as [[found|] evs1]; [done|].
    by destruct (probeMembers (Url p) (Dfc.Tmap smap)) as [[found|] evs2].
  - intros Hlen. apply Hne.
    apply nil_length_inv. rewrite length_app. done.
Qed.

(** C6.  [detectPrimary] fails with "Cluster map is empty", asking
    nobody, when the proxy has no cluster map or the map has neither
    proxies nor targets.  Otherwise it asks the members in the order
    proxies first, targets second, leaving out the members at the tracked
    address: it stops at the first member that answers with a primary
    other than the tracked address and adopts that primary and that
    cluster map; and when no member it asks reports another primary, it
    fails with "Detecting primary proxy failed" after asking all of them,
    and the proxy, with its tracked address, is as before. *)
Theorem detectPrimary_two_passes p :
  (Smap p = None
   ∨ (∃ smap, Smap p = Some smap ∧ Dfc.Pmap smap = [] ∧ Dfc.Tmap smap = []) →
   detectPrimary p = (p, Some ErrEmptyClusterMap, []))
  ∧ (∀ smap,
     Smap p = Some smap →
     Dfc.Pmap smap ++ Dfc.Tmap smap ≠ [] →
     (∀ before u after found,
        candidates (Url p) smap = before ++ u :: after →
        Forall (λ v, ¬ reportsOther (Url p) v) before →
        GetClusterMap u = inl found →
        Dfc.DirectURL (Dfc.ProxySI found) ≠ Url p →
        detectPrimary p
        = ({| Url := Dfc.DirectURL (Dfc.ProxySI found);
              Smap := Some found;
              configPath := configPath p |},
           None, EvGetClusterMap <$> (before ++ [u])))
     ∧ (Forall (λ v, ¬ reportsOther (Url p) v) (candidates (Url p) smap) →
        detectPrimary p
        = (p, Some ErrDetectFailed,
           EvGetClusterMap <$> candidates (Url p) smap))).
Proof.
  split.
  - unfold detectPrimary. intros [->|(smap & -> & -> & ->)]; done.
  - intros smap HS Hne. rewrite candidates_asked. split.
    + intros before u after found Hcand Hbefore Hget Hother.
      rewrite (detectPrimary_one_pass p smap HS Hne).
      by rewrite (probeMembers_first _ _ _ _ _ _ Hcand Hbefore Hget Hother).
    + intros Hall. rewrite (detectPrimary_one_pass p smap HS Hne).
      by rewrite (probeMembers_none _ _ Hall).
Qed.

(** *** sendTokensToProxy *)

Lemma elem_of_kept clk k entries entry :
  entry ∈ kept clk k entries
  ↔ ∃ i, entries !! i = Some entry ∧ Before (Expires entry.2) (clk (k + i)) = false.
Proof.
  revert k. induction entries as [|e rest IH]; intros k; simpl.
  - split; [by intros ?%elem_of_nil | by intros (i & ? & _)].
  - assert (Hshift : (∃ i, rest !! i = Some entry
                        ∧ Before (Expires entry.2) (clk (S k + i)) = false)
                     → ∃ i, (e :: rest) !! i = Some entry
                        ∧ Before (Expires entry.2) (clk (k + i)) = false).
    { intros (i & Hi & Hlive). exists (S i).
      split; [done|]. by replace (k + S i) with (S k + i) by lia. }
    destruct (Before (Expires e.2) (clk k)) eqn:Hb.
    + rewrite IH. split; [done|].
      intros ([|i] & Hi & Hlive); simpl in Hi.
      * injection Hi as ->. rewrite Nat.add_0_r in Hlive. congruence.
      * exists i. split; [done|]. by replace (S k + i) with (k + S i) by lia.
    + rewrite elem_of_cons, IH. split.
      * intros [->|Hin]; [|by apply Hshift].
        exists 0. split; [done|]. by rewrite Nat.add_0_r.
      * intros ([|i] & Hi & Hlive); simpl in Hi.
        -- left. congruence.
        -- right. exists i. split; [done|].
           by replace (S k + i) with (k + S i) by lia.
Qed.

Lemma kept_steady clk now k entries :
  (∀ i, clk i = now) → kept clk k entries = liveTokens now entries.
Proof.
  intros Hclk. unfold liveTokens. revert k.
  induction entries as [|e rest IH]; intros k; simpl; [done|].
  rewrite Hclk, IH. destruct (Before (Expires e.2) now) eqn:Hb.
  - by rewrite filter_cons_False by (rewrite Hb; done).
  - by rewrite filter_cons_True.
Qed.

(** The sweep deletes the expired entries it meets and lists the token
    strings of the others, in the order of the loop.  [before] are the
    entries already visited and kept. *)
Lemma sweep_kept clk k entries before out :
  wfMap (before ++ entries) →
  sweep clk k entries (before ++ entries) out
  = (before ++ kept clk k entries,
     out ++ (Token ∘ snd <$> kept clk k entries)).
Proof.
  revert k before out.
  induction entries as [|[id rec] rest IH]; intros k before out Hwf; simpl.
  - by rewrite !app_nil_r.
  - destruct (Before (Expires rec) (clk k)) eqn:Hb.
    + assert (Hdel : rdelete id (before ++ (id, rec) :: rest) = before ++ rest).
      { unfold wfMap in Hwf. rewrite fmap_app, fmap_cons in Hwf. simpl in Hwf.
        apply NoDup_app in Hwf as (_ & Hdisj & [Hnin _]%NoDup_cons).
        rewrite rdelete_app. unfold rdelete at 2.
        rewrite filter_cons_False by (simpl; intros Hne; by apply Hne).
        fold (rdelete id rest). rewrite !rdelete_absent; [done..|].
        intros Hin. apply (Hdisj id Hin). apply elem_of_cons. by left. }
      rewrite Hdel. apply IH.
      unfold wfMap in *. rewrite fmap_app in *. simpl in Hwf.
      apply NoDup_app in Hwf as (Hb1 & Hdisj & [_ Hrest]%NoDup_cons).
      apply NoDup_app. split; [done|]. split; [|done].
      intros x Hx Hx'. apply (Hdisj x Hx). apply elem_of_cons. by right.
    + replace (before ++ (id, rec) :: rest)
        with ((before ++ [(id, rec)]) ++ rest) by (by rewrite <- app_assoc).
      rewrite IH by (by rewrite <- app_assoc).
      by rewrite <- !app_assoc.
Qed.

Lemma snapshotTokens_kept clk m :
  wfMap (tokens m) →
  snapshotTokens clk m
  = (setTokens (kept clk 0 (tokens m)) m,
     {| Dfc.Tokens := Token ∘ snd <$> kept clk 0 (tokens m);
        Dfc.Version := version m |}).
Proof.
  intros Hwf. unfold snapshotTokens.
  pose proof (sweep_kept clk 0 (tokens m) [] [] Hwf) as Hsweep.
  simpl in Hsweep. by rewrite Hsweep.
Qed.

Lemma wfMap_lookup_inj toks i j (entry : string * tokenInfo) :
  wfMap toks → toks !! i = Some entry → toks !! j = Some entry → i = j.
Proof.
  unfold wfMap. intros Hwf Hi Hj.
  apply (NoDup_lookup _ i j entry.1 Hwf); by rewrite list_lookup_fmap, ?Hi, ?Hj.
Qed.

(** C7.  The snapshot phase of [sendTokensToProxy] lists exactly the
    token strings of the entries that have not expired when the loop
    reads the clock for them (for a clock that stands still at [now]:
    the entries whose expiry is not before [now], in table order), under
    the current version.  The entries found expired, and no others, leave
    the token table; the version and the users stay as they were.  With
    a tracked address, every run of [sendTokensToProxy] has these effects
    on the table, and first saves this very list.  With the empty tracked
    address, [sendTokensToProxy] returns at once: the manager is as
    before and nothing was saved, asked or sent. *)
Theorem sendTokensToProxy_snapshot clk m :
  wfMap (tokens m) →
  let snap := snapshotTokens clk m in
  Dfc.Version snap.2 = version m
  ∧ version snap.1 = version m
  ∧ Users snap.1 = Users m
  ∧ (∀ s, s ∈ Dfc.Tokens snap.2
          ↔ ∃ k entry, liveAt clk (tokens m) k entry ∧ hasToken s entry)
  ∧ (∀ entry, entry ∈ tokens snap.1 ↔ ∃ k, liveAt clk (tokens m) k entry)
  ∧ (∀ k entry, tokens m !! k = Some entry →
                Before (Expires entry.2) (clk k) = true →
                entry ∉ tokens snap.1)
  ∧ (∀ now, (∀ k, clk k = now) →
            Dfc.Tokens snap.2 = (Token ∘ snd <$> liveTokens now (tokens m))
            ∧ tokens snap.1 = liveTokens now (tokens m))
  ∧ (Url (mproxy m) ≠ "" →
     ∀ fuel, tokens (sendTokensToProxy fuel clk m).1.2 = tokens snap.1
             ∧ version (sendTokensToProxy fuel clk m).1.2 = version m
             ∧ ∃ evs, (sendTokensToProxy fuel clk m).2
                      = EvSaveTokens (Path m +:+ ".tokens") snap.2 :: evs)
  ∧ (Url (mproxy m) = "" →
     ∀ fuel, sendTokensToProxy fuel clk m = (Returned, m, [])).
Proof.
  intros Hwf snap. subst snap. rewrite (snapshotTokens_kept clk m Hwf). simpl.
  assert (Hlive : ∀ entry, entry ∈ kept clk 0 (tokens m)
                           ↔ ∃ k, liveAt clk (tokens m) k entry).
  { intros entry. rewrite elem_of_kept. unfold liveAt. done. }
  split; [done|]. split; [done|]. split; [done|]. split; [|split; [|split; [|split; [|split]]]].
  - intros s. rewrite list_elem_of_fmap. split.
    + intros (entry & -> & (k & Hk)%Hlive). by exists k, entry.
    + intros (k & entry & Hk & Htok). exists entry.
      split; [by rewrite <- Htok | apply Hlive; by exists k].
  - exact Hlive.
  - intros k entry Hk Hexp (k' & Hk' & Hlv)%Hlive.
    rewrite (wfMap_lookup_inj _ _ _ _ Hwf Hk Hk') in Hexp. congruence.
  - intros now Hclk. by rewrite (kept_steady clk now 0 _ Hclk).
  - intros Hurl fuel. unfold sendTokensToProxy.
    rewrite decide_False by done. rewrite (snapshotTokens_kept clk m Hwf).
    simpl. destruct (deliver fuel (mproxy m) _) as [[status p] evs].
    simpl. split; [done|]. split; [done|]. by exists evs.
  - intros Hurl fuel. unfold sendTokensToProxy. by rewrite decide_True.
Qed.

(** *** newUserManager *)

(** C8, as amended.  Over a path where no user file exists,
    [newUserManager] returns a manager with no users, no tokens and
    version 1, and it does so without looking at the token file: a token
    file that is still there is not read.  When the user file exists and
    loads and the token file loads, every manager it returns has the
    version stored in the token file and the tokens of that file that
    decrypt; it does return one as soon as every stored password
    decodes. *)
Theorem newUserManager_version dbPath p :
  (Stat dbPath = StatNotExist →
   newUserManager dbPath p
   = Started {| Path := dbPath; Users := ∅; tokens := [];
                version := 1; mproxy := p |})
  ∧ (∀ users tokenList,
     Stat dbPath = StatOK →
     LocalLoadUsers dbPath = inl users →
     LocalLoadTokens (dbPath +:+ ".tokens") = inl tokenList →
     (∀ mgr, newUserManager dbPath p = Started mgr →
             version mgr = Dfc.Version tokenList
             ∧ tokens mgr = loadTokens (Dfc.Tokens tokenList) [])
     ∧ (map_Forall (λ _ info, is_Some (DecodeString (Password info))) users →
        ∃ mgr, newUserManager dbPath p = Started mgr
               ∧ version mgr = Dfc.Version tokenList
               ∧ Users mgr = decodePassword <$> users)).
Proof.
  unfold newUserManager. split.
  - by intros ->.
  - intros users tokenList -> -> . simpl. intros ->. simpl. split.
    + intros mgr. case_decide; [|done]. by intros [= <-].
    + intros Hall. rewrite decide_True by done. by eexists.
Qed.

(** *** The table and the version stay well-formed *)

Lemma revokeToken_wf m token :
  wfMap (tokens m) → wfMap (tokens (revokeToken m token).1).
Proof.
  intros Hwf. unfold revokeToken.
  destruct (findToken token (tokens m)) as [[id info]|]; simpl; [|done].
  by apply wfMap_rdelete.
Qed.

Lemma userByToken_wf clk m token :
  wfMap (tokens m) → wfMap (tokens (userByToken clk m token).1).
Proof.
  intros Hwf. unfold userByToken.
  destruct (findToken token (tokens m)) as [[id info]|]; simpl; [|done].
  destruct (Before (Expires info) (clk 0)); simpl; [by apply wfMap_rdelete|].
  by destruct (Users m !! id).
Qed.

Lemma mintToken_wf issuedAt m userID creds :
  wfMap (tokens m) → wfMap (tokens (mintToken issuedAt m userID creds).1.1).
Proof.
  intros Hwf. unfold mintToken.
  destruct (SignedString _ _); simpl; [by apply wfMap_rinsert | done].
Qed.

Lemma issueToken_wf clk m userID pwd :
  wfMap (tokens m) → wfMap (tokens (issueToken clk m userID pwd).1.1).
Proof.
  intros Hwf. unfold issueToken.
  destruct (Users m !! userID) as [user|]; [|done].
  case_decide; [done|].
  destruct (rlookup userID (tokens m)) as [token|]; [|by apply mintToken_wf].
  destruct (After (Expires token) (clk 0)); [done|].
  apply mintToken_wf. simpl. by apply wfMap_rdelete.
Qed.

Lemma loadTokens_wf tokenStrs toks :
  wfMap toks → wfMap (loadTokens tokenStrs toks).
Proof.
  revert toks. induction tokenStrs as [|tstr rest IH]; intros toks Hwf; simpl.
  - done.
  - destruct (decryptToken tstr); apply IH; [by apply wfMap_rinsert | done].
Qed.

Lemma revokeToken_int64 m token :
  is_int64 (version m) → is_int64 (version (revokeToken m token).1).
Proof.
  intros Hv. unfold revokeToken.
  destruct (findToken token (tokens m)) as [[id info]|]; simpl; [|done].
  apply incr64_is_int64.
Qed.

Lemma issueToken_int64 clk m userID pwd :
  is_int64 (version m) → is_int64 (version (issueToken clk m userID pwd).1.1).
Proof.
  intros Hv. unfold issueToken, mintToken.
  destruct (Users m !! userID) as [user|]; [|done].
  case_decide; [done|].
  destruct (rlookup userID (tokens m)) as [token|].
  - destruct (After (Expires token) (clk 0)); [done|].
    destruct (SignedString _ _); simpl; [apply incr64_is_int64 | done].
  - destruct (SignedString _ _); simpl; [apply incr64_is_int64 | done].
Qed.

Lemma delUser_int64 m userID :
  is_int64 (version m) → is_int64 (version (delUser m userID).1.1).
Proof.
  intros Hv. unfold delUser. destruct (Users m !! userID) as [user|]; [|done].
  simpl. case_bool_decide; simpl; [apply incr64_is_int64 | done].
Qed.

(** *** addUser and delUser *)

(** No path through [addUser] touches the version. *)
Lemma addUser_version m userID userPass :
  version (addUser m userID userPass).1 = version m.
Proof.
  unfold addUser. case_decide; [done|]. by destruct (Users m !! userID).
Qed.

(** [addUser] refuses an empty name or secret and a registered name, and
    then changes nothing. *)
Lemma addUser_rejects m userID userPass :
  (userID = "" ∨ userPass = "" →
   addUser m userID userPass = (m, Some ErrInvalidCredentials))
  ∧ (userID ≠ "" → userPass ≠ "" → is_Some (Users m !! userID) →
     addUser m userID userPass = (m, Some (ErrAlreadyRegistered userID))).
Proof.
  unfold addUser. split.
  - intros Hempty. by rewrite decide_True.
  - intros H1 H2 [user Huser]. rewrite decide_False by tauto. by rewrite Huser.
Qed.

(** A successful [addUser]: the user is created, a token left under the
    name is deleted, the error is that of saving the user file, and the
    version is the one before. *)
Lemma addUser_registers m userID userPass :
  Users m !! userID = None → userID ≠ "" → userPass ≠ "" →
  ∃ m', addUser m userID userPass = (m', saveUsers m')
    ∧ Users m' = <[userID := {| UserID := userID;
                                Password := EncodeToString userPass;
                                passwordDecoded := userPass;
                                Creds := ∅ |}]> (Users m)
    ∧ tokens m' = rdelete userID (tokens m)
    ∧ rlookup userID (tokens m') = None
    ∧ version m' = version m.
Proof.
  intros Hnew H1 H2. unfold addUser. rewrite decide_False by tauto.
  rewrite Hnew. eexists. split; [done|]. simpl.
  split; [done|]. split; [done|]. split; [apply rlookup_rdelete | done].
Qed.

(** C1, at the first call of the test [createUsers]: on the manager
    created over a missing user file, [addUser "user1" "pass2"] registers
    the user and returns what saving the user file returns, and the
    version is 1 before and after. *)
Theorem addUser_fresh_keeps_version :
  let m' := (addUser Sample.fresh "user1" "pass2").1 in
  (addUser Sample.fresh "user1" "pass2").2 = saveUsers m'
  ∧ Users m' !! "user1"
    = Some {| UserID := "user1"; Password := EncodeToString "pass2";
              passwordDecoded := "pass2"; Creds := ∅ |}
  ∧ version Sample.fresh = 1%Z
  ∧ version m' = 1%Z.
Proof. done. Qed.

(** [delUser] on a registered user that holds no token: the user goes,
    the version stays, no replication starts. *)
Lemma delUser_without_token m userID :
  is_Some (Users m !! userID) → rlookup userID (tokens m) = None →
  ∃ m', delUser m userID = (m', saveUsers m', false)
    ∧ Users m' = delete userID (Users m)
    ∧ tokens m' = tokens m
    ∧ version m' = version m.
Proof.
  intros [user Huser] Hnone. unfold delUser. rewrite Huser. simpl.
  rewrite Hnone. rewrite bool_decide_eq_false_2 by (by intros [? [=]]).
  eexists. split; [done|]. simpl. split; [done|]. split; [|done].
  apply rdelete_absent. by apply rlookup_None.
Qed.

(** [delUser] on a registered user that holds a token: both go and the
    version advances by one step. *)
Lemma delUser_with_token m userID :
  is_Some (Users m !! userID) → is_Some (rlookup userID (tokens m)) →
  ∃ m', delUser m userID = (m', saveUsers m', true)
    ∧ Users m' = delete userID (Users m)
    ∧ tokens m' = rdelete userID (tokens m)
    ∧ version m' = incr64 (version m).
Proof.
  intros [user Huser] Htok. unfold delUser. rewrite Huser. simpl.
  rewrite bool_decide_eq_true_2 by done. by eexists.
Qed.

Lemma delUser_unknown m userID :
  Users m !! userID = None →
  delUser m userID = (m, Some (ErrUserNotExist userID), false)
  ∧ classify (ErrUserNotExist userID) = UnknownUser.
Proof. intros Hnone. unfold delUser. by rewrite Hnone. Qed.

(** C2, at the first call of the test [deleteUsers]: with "user1"
    registered and no token in the table, [delUser "user1"] removes the
    user and returns what saving the user file returns, starts no
    replication, and the version is 1 before and after. *)
Theorem delUser_without_token_keeps_version :
  let m := (addUser Sample.fresh "user1" "pass2").1 in
  let m' := (delUser m "user1").1.1 in
  is_Some (Users m !! "user1")
  ∧ tokens m = []
  ∧ delUser m "user1" = (m', saveUsers m', false)
  ∧ Users m' !! "user1" = None
  ∧ version m = 1%Z
  ∧ version m' = 1%Z.
Proof. repeat split; done. Qed.

End authn_facts.

(** ** Ranged maps: insertion *)

Section rangedMap_insert.
Context {V : Type}.
Implicit Types (m : list (string * V)) (id : string) (v : V).

Lemma rlookup_app m1 m2 id :
  rlookup id (m1 ++ m2) =
    match rlookup id m1 with
    | Some v => Some v
    | None => rlookup id m2
    end.
Proof.
  induction m1 as [|[k w] m1 IH]; simpl; [done|].
  by destruct (decide (k = id)).
Qed.

Lemma rlookup_rdelete_ne m id id' : id ≠ id' → rlookup id' (rdelete id m) = rlookup id' m.
Proof.
  intros Hne. unfold rdelete. induction m as [|[k w] m IH]; simpl; [done|].
  destruct (decide (k = id)) as [->|Hk].
  - rewrite filter_cons_False by (simpl; intros H; by apply H).
    by rewrite decide_False.
  - rewrite filter_cons_True by done. simpl. by rewrite IH.
Qed.

Lemma rlookup_rinsert m id v : rlookup id (rinsert id v m) = Some v.
Proof.
  unfold rinsert. rewrite rlookup_app, rlookup_rdelete. simpl.
  by rewrite decide_True.
Qed.

Lemma rlookup_rinsert_ne m id id' v :
  id ≠ id' → rlookup id' (rinsert id v m) = rlookup id' m.
Proof.
  intros Hne. unfold rinsert. rewrite rlookup_app, rlookup_rdelete_ne by done.
  destruct (rlookup id' m); [done|]. simpl. by rewrite decide_False.
Qed.

Lemma elem_of_rinsert m id v (entry : string * V) :
  entry ∈ rinsert id v m ↔ (entry ∈ m ∧ entry.1 ≠ id) ∨ entry = (id, v).
Proof.
  unfold rinsert. rewrite elem_of_app, elem_of_rdelete, list_elem_of_singleton.
  done.
Qed.

(** In a well-formed table the entry under a key is the one [rlookup]
    finds. *)
Lemma rlookup_wf m id v : wfMap m → (id, v) ∈ m → rlookup id m = Some v.
Proof.
  intros Hwf Hin. destruct (rlookup id m) as [w|] eqn:Hl.
  - f_equal. apply rlookup_Some_elem in Hl. by eapply wfMap_unique.
  - apply rlookup_None in Hl. destruct Hl.
    apply list_elem_of_fmap. by exists (id, v).
Qed.

End rangedMap_insert.

(** ** The AuthN server: how the operations compose *)

Section authn_compose.
Import Jwt AuthN.
Context `{!Lib, !Env}.
Implicit Types (m : userManager) (toks : tokenMap) (clk : Clock).

Lemma setTokens_same m : setTokens (tokens m) m = m.
Proof. by destruct m. Qed.

Lemma mintToken_signed issuedAt m userID creds tokenString :
  SignedString (tokenClaims issuedAt userID creds) AuthSecret = inl tokenString →
  mintToken issuedAt m userID creds
  = (setVersion (incr64 (version m))
       (setTokens (rinsert userID (mintedToken issuedAt userID tokenString)
                           (tokens m)) m),
     inl tokenString, true).
Proof. unfold mintToken, tokenClaims. intros ->. done. Qed.

Lemma mintToken_unsigned issuedAt m userID creds err :
  SignedString (tokenClaims issuedAt userID creds) AuthSecret = inr err →
  mintToken issuedAt m userID creds
  = (m, inr (ErrGenerateToken (errorString err)), false).
Proof. unfold mintToken, tokenClaims. intros ->. done. Qed.

Lemma issueToken_registered clk m userID pwd user :
  Users m !! userID = Some user → passwordDecoded user = pwd →
  issueToken clk m userID pwd =
    match rlookup userID (tokens m) with
    | Some token =>
      if After (Expires token) (clk 0) then (m, inl (Token token), false)
      else mintToken (clk 1) (setTokens (rdelete userID (tokens m)) m)
                     userID (Creds user)
    | None => mintToken (clk 0) m userID (Creds user)
    end.
Proof.
  intros Huser Hpwd. unfold issueToken. rewrite Huser.
  by rewrite decide_False by (intros Hne; by apply Hne).
Qed.

(** X1.  For a registered user with the right secret and no live token
    (none stored, or one that has expired), [issueToken] signs a token
    issued at the current reading of the clock and expiring one expiry
    period later.  If signing succeeds, the token is stored under the user
    ID in place of the old one, the other users' tokens are untouched, the
    version advances by one step, the users are as before and a replication
    starts.  If signing fails, the call fails with "failed to generate
    token", the version is as before and no replication starts, but the
    expired token is gone from the table all the same. *)
Theorem issueToken_mints clk m userID pwd user :
  Users m !! userID = Some user →
  passwordDecoded user = pwd →
  (∀ token, rlookup userID (tokens m) = Some token →
            After (Expires token) (clk 0) = false) →
  let issuedAt := issueTime clk m userID in
  (∀ tokenString,
     SignedString (tokenClaims issuedAt userID (Creds user)) AuthSecret
       = inl tokenString →
     ∃ m', issueToken clk m userID pwd = (m', inl tokenString, true)
       ∧ rlookup userID (tokens m')
         = Some (mintedToken issuedAt userID tokenString)
       ∧ (∀ id, id ≠ userID → rlookup id (tokens m') = rlookup id (tokens m))
       ∧ version m' = incr64 (version m)
       ∧ Users m' = Users m)
  ∧ (∀ err,
     SignedString (tokenClaims issuedAt userID (Creds user)) AuthSecret
       = inr err →
     issueToken clk m userID pwd
     = (setTokens (rdelete userID (tokens m)) m,
        inr (ErrGenerateToken (errorString err)), false)).
Proof.
  intros Huser Hpwd Hold issuedAt. subst issuedAt. unfold issueTime.
  rewrite (issueToken_registered clk m userID pwd user Huser Hpwd).
  destruct (rlookup userID (tokens m)) as [token|] eqn:Hlook.
  - rewrite (Hold token eq_refl). split.
    + intros tokenString Hsign. rewrite (mintToken_signed _ _ _ _ _ Hsign).
      eexists. split; [done|]. simpl.
      split; [apply rlookup_rinsert|]. split; [|done].
      intros id Hne. by rewrite rlookup_rinsert_ne, rlookup_rdelete_ne.
    + intros err Hsign. by rewrite (mintToken_unsigned _ _ _ _ _ Hsign).
  - split.
    + intros tokenString Hsign. rewrite (mintToken_signed _ _ _ _ _ Hsign).
      eexists. split; [done|]. simpl.
      split; [apply rlookup_rinsert|]. split; [|done].
      intros id Hne. by rewrite rlookup_rinsert_ne.
    + intros err Hsign. rewrite (mintToken_unsigned _ _ _ _ _ Hsign).
      rewrite rdelete_absent by (by apply rlookup_None).
      by rewrite setTokens_same.
Qed.

(** X2.  A name that is registered anew never inherits a token: after a
    successful [addUser], whatever the token table held under the name,
    [issueToken] with the secret just registered signs a new token, issued
    at the first reading of the clock, and the version is one step after
    the version before the [addUser]; with any other secret it fails with
    "Invalid username or password" and changes nothing. *)
Theorem addUser_then_issueToken clk m userID userPass :
  Users m !! userID = None → userID ≠ "" → userPass ≠ "" →
  let m1 := (addUser m userID userPass).1 in
  (∀ tokenString,
     SignedString (tokenClaims (clk 0) userID ∅) AuthSecret = inl tokenString →
     ∃ m2, issueToken clk m1 userID userPass = (m2, inl tokenString, true)
       ∧ rlookup userID (tokens m2)
         = Some (mintedToken (clk 0) userID tokenString)
       ∧ version m2 = incr64 (version m))
  ∧ (∀ pwd, pwd ≠ userPass →
     issueToken clk m1 userID pwd = (m1, inr ErrInvalidUserOrPassword, false)).
Proof.
  intros Hnew H1 H2 m1. subst m1.
  destruct (addUser_registers m userID userPass Hnew H1 H2)
    as (m1 & -> & Husers & Htoks & Hnone & Hver). simpl.
  assert (Huser : Users m1 !! userID
                  = Some {| UserID := userID; Password := EncodeToString userPass;
                            passwordDecoded := userPass; Creds := ∅ |})
    by (by rewrite Husers, lookup_insert_eq).
  split.
  - intros tokenString Hsign.
    rewrite (issueToken_registered clk m1 userID userPass _ Huser eq_refl).
    rewrite Hnone. simpl. rewrite (mintToken_signed _ _ _ _ _ Hsign).
    eexists. split; [done|]. simpl. split; [apply rlookup_rinsert|].
    by rewrite Hver.
  - intros pwd Hpwd. unfold issueToken. rewrite Huser. simpl.
    by rewrite decide_True by done.
Qed.

(** What a successful [issueToken] leaves behind. *)
Lemma issueToken_stored clk m userID pwd m1 tokenString spawned :
  issueToken clk m userID pwd = (m1, inl tokenString, spawned) →
  ∃ user token,
    Users m !! userID = Some user ∧ passwordDecoded user = pwd
    ∧ Users m1 = Users m
    ∧ rlookup userID (tokens m1) = Some token
    ∧ Token token = tokenString.
Proof.
  intros Hcall.
  assert (Hreg : ∃ user, Users m !! userID = Some user ∧ passwordDecoded user = pwd).
  { unfold issueToken in Hcall.
    destruct (Users m !! userID) as [user|]; [|done].
    case_decide; [done|]. by exists user. }
  destruct Hreg as (user & Huser & Hpwd).
  rewrite (issueToken_registered clk m userID pwd user Huser Hpwd) in Hcall.
  assert (Hmint : ∀ issuedAt m0,
            Users m0 = Users m →
            mintToken issuedAt m0 userID (Creds user) = (m1, inl tokenString, spawned) →
            ∃ token, rlookup userID (tokens m1) = Some token
              ∧ Token token = tokenString ∧ Users m1 = Users m).
  { intros issuedAt m0 Hm0. unfold mintToken.
    destruct (SignedString _ _) as [s|err]; [|done].
    intros [= <- <- <-]. eexists. simpl.
    split; [apply rlookup_rinsert|]. done. }
  exists user.
  destruct (rlookup userID (tokens m)) as [token|] eqn:Hlook.
  - destruct (After (Expires token) (clk 0)) eqn:Hlive.
    + injection Hcall as <- <- <-. by exists token.
    + destruct (Hmint (clk 1) (setTokens (rdelete userID (tokens m)) m)
                  eq_refl Hcall) as (tok & Hl & Htok & Hu).
      by exists tok.
  - destruct (Hmint (clk 0) m eq_refl Hcall) as (tok & Hl & Htok & Hu).
    by exists tok.
Qed.

(** X3.  Issuing is idempotent until the token expires: when [issueToken]
    has returned a token string, that string is stored under the user ID,
    and every further [issueToken] with the same arguments at a time before
    the expiry of the stored token returns the same string and changes
    nothing. *)
Theorem issueToken_twice clk m userID pwd m1 tokenString spawned :
  issueToken clk m userID pwd = (m1, inl tokenString, spawned) →
  ∃ token,
    rlookup userID (tokens m1) = Some token
    ∧ Token token = tokenString
    ∧ ∀ clk', After (Expires token) (clk' 0) = true →
        issueToken clk' m1 userID pwd = (m1, inl tokenString, false).
Proof.
  intros Hcall.
  destruct (issueToken_stored _ _ _ _ _ _ _ Hcall)
    as (user & token & Huser & Hpwd & Hu & Hl & Htok).
  exists token. split; [done|]. split; [done|]. intros clk' Hlive.
  rewrite (issueToken_registered clk' m1 userID pwd user) by (by rewrite ?Hu).
  by rewrite Hl, Hlive, Htok.
Qed.

(** X4.  A token that [issueToken] has returned resolves to its owner: if
    no other user's entry carries the same string, [userByToken] on that
    string returns the user it was issued to and changes nothing as long as
    the stored token has not expired, and once it has expired fails with
    "Token expired" and deletes the user's entry. *)
Theorem issued_token_resolves clk m userID pwd m1 tokenString spawned :
  wfMap (tokens m) →
  issueToken clk m userID pwd = (m1, inl tokenString, spawned) →
  (∀ entry, entry ∈ tokens m1 → hasToken tokenString entry → entry.1 = userID) →
  ∃ user token,
    Users m1 !! userID = Some user
    ∧ rlookup userID (tokens m1) = Some token
    ∧ ∀ clk',
        (Before (Expires token) (clk' 0) = false →
         userByToken clk' m1 tokenString = (m1, inl user))
        ∧ (Before (Expires token) (clk' 0) = true →
           userByToken clk' m1 tokenString
           = (setTokens (rdelete userID (tokens m1)) m1, inr ErrTokenExpired)).
Proof.
  intros Hwf Hcall Hown.
  destruct (issueToken_stored _ _ _ _ _ _ _ Hcall)
    as (user & token & Huser & Hpwd & Hu & Hl & Htok).
  assert (Hwf1 : wfMap (tokens m1)).
  { pose proof (issueToken_wf clk m userID pwd Hwf) as H1.
    by rewrite Hcall in H1. }
  assert (Hfind : findToken tokenString (tokens m1) = Some (userID, token)).
  { destruct (findToken_cases tokenString (tokens m1))
      as [(id & info & -> & Hin & Hstr)|[_ Hnone]].
    - pose proof (Hown (id, info) Hin Hstr) as Hid. simpl in Hid. subst id.
      f_equal. f_equal. apply rlookup_Some_elem in Hl. by eapply wfMap_unique.
    - destruct Hnone. exists (userID, token).
      split; [by apply rlookup_Some_elem | done]. }
  exists user, token. split; [by rewrite Hu|]. split; [done|].
  intros clk'. unfold userByToken. rewrite Hfind.
  split; intros ->; [|done]. by rewrite Hu, Huser.
Qed.

(** X5.  A revoked token is not found any more: when at most one entry of
    the table carries the string, [userByToken] after [revokeToken] fails
    with "Token not found" and changes nothing, and revoking the string a
    second time changes nothing either. *)
Theorem revokeToken_then_lookup clk m token :
  (∀ e1 e2, e1 ∈ tokens m → e2 ∈ tokens m →
            hasToken token e1 → hasToken token e2 → e1 = e2) →
  let m1 := (revokeToken m token).1 in
  userByToken clk m1 token = (m1, inr ErrTokenNotFound)
  ∧ revokeToken m1 token = (m1, false).
Proof.
  intros Huniq m1.
  assert (Hgone : findToken token (tokens m1) = None).
  { subst m1. unfold revokeToken.
    destruct (findToken_cases token (tokens m))
      as [(id & info & -> & Hin & Hstr)|[Hnone _]].
    - simpl. apply findToken_None. intros entry [He Hne]%elem_of_rdelete Hstr'.
      apply Hne. by rewrite (Huniq entry (id, info) He Hin Hstr' Hstr).
    - by rewrite Hnone. }
  unfold userByToken, revokeToken at 1. by rewrite Hgone.
Qed.

(** X6.  After [delUser] of a registered user, the user and every token
    stored under the ID are gone and the other users are as before;
    [issueToken] for the ID then fails with "Invalid credentials", whatever
    the secret, and a second [delUser] fails with "User ... does not
    exist"; neither changes anything. *)
Theorem delUser_then_unknown m userID :
  is_Some (Users m !! userID) →
  let m1 := (delUser m userID).1.1 in
  Users m1 !! userID = None
  ∧ (∀ id, id ≠ userID → Users m1 !! id = Users m !! id)
  ∧ (∀ entry, entry ∈ tokens m1 ↔ entry ∈ tokens m ∧ entry.1 ≠ userID)
  ∧ (∀ clk pwd, issueToken clk m1 userID pwd = (m1, inr ErrInvalidCredentials, false))
  ∧ delUser m1 userID = (m1, Some (ErrUserNotExist userID), false).
Proof.
  intros [user Huser] m1.
  assert (Hm1 : Users m1 = delete userID (Users m)
                ∧ tokens m1 = rdelete userID (tokens m)).
  { subst m1. unfold delUser. rewrite Huser. simpl.
    by case_bool_decide. }
  destruct Hm1 as [Hu Ht].
  assert (Hnone : Users m1 !! userID = None) by (by rewrite Hu, lookup_delete_eq).
  split; [done|]. split; [|split; [|split]].
  - intros id Hne. by rewrite Hu, lookup_delete_ne.
  - intros entry. by rewrite Ht, elem_of_rdelete.
  - intros clk pwd. unfold issueToken. by rewrite Hnone.
  - unfold delUser. by rewrite Hnone.
Qed.

(** X7.  [userByToken] never touches the version or the users and never
    adds a token.  It returns a user only for an entry that carries the
    string, has not expired and whose user ID is registered to that user,
    and then changes nothing; the only change it ever makes is to drop an
    entry when it answers "Token expired". *)
Theorem userByToken_frame clk m token :
  let r := userByToken clk m token in
  version r.1 = version m
  ∧ Users r.1 = Users m
  ∧ (∀ entry, entry ∈ tokens r.1 → entry ∈ tokens m)
  ∧ (∀ user, r.2 = inl user →
       r.1 = m
       ∧ ∃ id info, (id, info) ∈ tokens m ∧ Token info = token
           ∧ Before (Expires info) (clk 0) = false
           ∧ Users m !! id = Some user)
  ∧ (r.1 ≠ m → r.2 = inr ErrTokenExpired).
Proof.
  unfold userByToken.
  destruct (findToken_cases token (tokens m))
    as [(id & info & -> & Hin & Hstr)|[-> _]]; [|by repeat split].
  destruct (Before (Expires info) (clk 0)) eqn:Hb; simpl.
  - split; [done|]. split; [done|]. split; [|split; [done|done]].
    intros entry [He _]%elem_of_rdelete. done.
  - destruct (Users m !! id) as [user|] eqn:Hu; simpl.
    + split; [done|]. split; [done|]. split; [done|]. split; [|done].
      intros ? [= <-]. split; [done|]. by exists id, info.
    + by repeat split.
Qed.

Lemma addUser_path m userID userPass :
  Path (addUser m userID userPass).1 = Path m.
Proof.
  unfold addUser. case_decide; [done|]. by destruct (Users m !! userID).
Qed.

(** X22.  An error from [addUser] does not always mean that nothing
    happened: when the name is new and both strings are non-empty but the
    user file cannot be saved, [addUser] returns the save error and the
    user is registered in memory all the same, with the version as before;
    the same call again then fails with "already registered". *)
Theorem addUser_save_failure m userID userPass err :
  Users m !! userID = None → userID ≠ "" → userPass ≠ "" →
  LocalSaveUsers (Path m)
    (<[userID := {| UserID := userID; Password := EncodeToString userPass;
                    passwordDecoded := userPass; Creds := ∅ |}]> (Users m))
    = Some err →
  let r := addUser m userID userPass in
  r.2 = Some (ErrSaveUsers (errorString err))
  ∧ Users r.1 !! userID
    = Some {| UserID := userID; Password := EncodeToString userPass;
              passwordDecoded := userPass; Creds := ∅ |}
  ∧ version r.1 = version m
  ∧ addUser r.1 userID userPass = (r.1, Some (ErrAlreadyRegistered userID)).
Proof.
  intros Hnew H1 H2 Hsave r. subst r.
  pose proof (addUser_path m userID userPass) as HP.
  destruct (addUser_registers m userID userPass Hnew H1 H2)
    as (m1 & Heq & Husers & _ & _ & Hver).
  rewrite Heq in *. cbn [fst snd] in *.
  assert (Hu : Users m1 !! userID
               = Some {| UserID := userID; Password := EncodeToString userPass;
                         passwordDecoded := userPass; Creds := ∅ |})
    by (by rewrite Husers, lookup_insert_eq).
  split; [|split; [done|split; [done|]]].
  - unfold saveUsers. by rewrite HP, Husers, Hsave.
  - unfold addUser. rewrite decide_False by tauto. by rewrite Hu.
Qed.

End authn_compose.

(** ** The AuthN server: finding the primary and delivering the list *)

Section authn_delivery.
Import Jwt AuthN.
Context `{!Lib, !Env}.
Implicit Types (p : proxy) (tl : Dfc.TokenList).

(** What one loop of [detectPrimary] can return. *)
Lemma probeMembers_outcome url members :
  let r := probeMembers url members in
  (∀ smap, r.1 = Some smap →
     Dfc.DirectURL (Dfc.ProxySI smap) ≠ url
     ∧ ∃ u, GetClusterMap u = inl smap ∧ last r.2 = Some (EvGetClusterMap u))
  ∧ (∀ ev, ev ∈ r.2 →
     ∃ member, member ∈ members ∧ Dfc.DirectURL member.2 ≠ url
               ∧ ev = EvGetClusterMap (Dfc.DirectURL member.2)).
Proof.
  induction members as [|[k info] members [IH1 IH2]]; simpl.
  - split; [done|]. by intros ev ?%elem_of_nil.
  - assert (Hrest : ∀ ev, ev ∈ (probeMembers url members).2 →
              ∃ member, member ∈ (k, info) :: members
                ∧ Dfc.DirectURL member.2 ≠ url
                ∧ ev = EvGetClusterMap (Dfc.DirectURL member.2)).
    { intros ev (member & Hin & Hne & ->)%IH2. exists member.
      split; [apply elem_of_cons; by right | done]. }
    destruct (decide (Dfc.DirectURL info = url)) as [Heq|Hne]; [done|].
    assert (Hhere : ∃ member, member ∈ (k, info) :: members
                ∧ Dfc.DirectURL member.2 ≠ url
                ∧ EvGetClusterMap (Dfc.DirectURL info)
                  = EvGetClusterMap (Dfc.DirectURL member.2)).
    { exists (k, info). split; [apply elem_of_cons; by left | done]. }
    assert (Hcont : ∀ smap,
              (probeMembers url members).1 = Some smap →
              Dfc.DirectURL (Dfc.ProxySI smap) ≠ url
              ∧ ∃ u, GetClusterMap u = inl smap
                  ∧ last (EvGetClusterMap (Dfc.DirectURL info)
                          :: (probeMembers url members).2)
                    = Some (EvGetClusterMap u)).
    { intros smap Hs. destruct (IH1 smap Hs) as (Hd & u & Hg & Hlast).
      split; [done|]. exists u. split; [done|].
      destruct ((probeMembers url members).2); [done|]. by rewrite last_cons, Hlast. }
    destruct (GetClusterMap (Dfc.DirectURL info)) as [smap|err] eqn:Hget.
    + destruct (decide (Dfc.DirectURL (Dfc.ProxySI smap) ≠ url)) as [Hd|Hd].
      * simpl. split.
        -- intros ? [= <-]. split; [done|]. by exists (Dfc.DirectURL info).
        -- by intros ev ->%list_elem_of_singleton.
      * destruct (probeMembers url members) as [found evs]. simpl in *.
        split; [done|]. intros ev [->|Hev]%elem_of_cons; [done | by apply Hrest].
    + destruct (probeMembers url members) as [found evs]. simpl in *.
      split; [done|]. intros ev [->|Hev]%elem_of_cons; [done | by apply Hrest].
Qed.

(** [detectPrimary] either adopts a cluster map some member returned, or
    fails and hands the proxy back. *)
Lemma detectPrimary_cases p :
  (∃ found evs u,
     detectPrimary p = (adopt found p, None, evs)
     ∧ Dfc.DirectURL (Dfc.ProxySI found) ≠ Url p
     ∧ GetClusterMap u = inl found
     ∧ last evs = Some (EvGetClusterMap u))
  ∨ (∃ err evs, detectPrimary p = (p, Some err, evs)).
Proof.
  unfold detectPrimary. destruct (Smap p) as [smap|]; [|right; by eexists _, _].
  case_decide; [right; by eexists _, _|].
  pose proof (probeMembers_outcome (Url p) (Dfc.Pmap smap)) as [HP1 _].
  pose proof (probeMembers_outcome (Url p) (Dfc.Tmap smap)) as [HT1 _].
  destruct (probeMembers (Url p) (Dfc.Pmap smap)) as [[found|] evs1]; simpl in *.
  - left. destruct (HP1 found eq_refl) as (Hd & u & Hg & Hl). by exists found, evs1, u.
  - destruct (probeMembers (Url p) (Dfc.Tmap smap)) as [[found|] evs2]; simpl in *.
    + left. destruct (HT1 found eq_refl) as (Hd & u & Hg & Hl).
      exists found, (evs1 ++ evs2), u. split; [done|]. split; [done|]. split; [done|].
      destruct evs2 as [|ev evs2]; [done|].
      by rewrite last_app, Hl.
    + right. by eexists _, _.
Qed.

Lemma detectPrimary_asks p ev :
  ev ∈ (detectPrimary p).2 →
  ∃ smap member, Smap p = Some smap
    ∧ member ∈ Dfc.Pmap smap ++ Dfc.Tmap smap
    ∧ Dfc.DirectURL member.2 ≠ Url p
    ∧ ev = EvGetClusterMap (Dfc.DirectURL member.2).
Proof.
  unfold detectPrimary. destruct (Smap p) as [smap|]; [|by intros ?%elem_of_nil].
  case_decide; [by intros ?%elem_of_nil|].
  pose proof (probeMembers_outcome (Url p) (Dfc.Pmap smap)) as [_ HP2].
  pose proof (probeMembers_outcome (Url p) (Dfc.Tmap smap)) as [_ HT2].
  assert (HP : ∀ ev, ev ∈ (probeMembers (Url p) (Dfc.Pmap smap)).2 →
            ∃ smap' member, Some smap = Some smap'
              ∧ member ∈ Dfc.Pmap smap' ++ Dfc.Tmap smap'
              ∧ Dfc.DirectURL member.2 ≠ Url p
              ∧ ev = EvGetClusterMap (Dfc.DirectURL member.2)).
  { intros ev' (member & Hin & Hne & ->)%HP2. exists smap, member.
    split; [done|]. split; [apply elem_of_app; by left | done]. }
  assert (HT : ∀ ev, ev ∈ (probeMembers (Url p) (Dfc.Tmap smap)).2 →
            ∃ smap' member, Some smap = Some smap'
              ∧ member ∈ Dfc.Pmap smap' ++ Dfc.Tmap smap'
              ∧ Dfc.DirectURL member.2 ≠ Url p
              ∧ ev = EvGetClusterMap (Dfc.DirectURL member.2)).
  { intros ev' (member & Hin & Hne & ->)%HT2. exists smap, member.
    split; [done|]. split; [apply elem_of_app; by right | done]. }
  destruct (probeMembers (Url p) (Dfc.Pmap smap)) as [[found|] evs1]; simpl in *;
    [by apply HP|].
  destruct (probeMembers (Url p) (Dfc.Tmap smap)) as [[found|] evs2]; simpl in *;
    intros [Hev|Hev]%elem_of_app; (by apply HP) || (by apply HT).
Qed.

(** X8.  Whatever the cluster answers, [detectPrimary] keeps the path of
    the proxy file; when it succeeds, the address it now tracks differs
    from the one before, and it is the primary named in the cluster map that
    the member asked last returned, which is the map it now holds; when it
    fails, the proxy is as before.  It only asks members of the cluster map
    it held, and never one at the tracked address. *)
Theorem detectPrimary_outcome p :
  let r := detectPrimary p in
  configPath r.1.1 = configPath p
  ∧ (r.1.2 = None →
     Url r.1.1 ≠ Url p
     ∧ ∃ found u, Smap r.1.1 = Some found
         ∧ Url r.1.1 = Dfc.DirectURL (Dfc.ProxySI found)
         ∧ GetClusterMap u = inl found
         ∧ last r.2 = Some (EvGetClusterMap u))
  ∧ (r.1.2 ≠ None → r.1.1 = p)
  ∧ (∀ ev, ev ∈ r.2 →
     ∃ smap member, Smap p = Some smap
       ∧ member ∈ Dfc.Pmap smap ++ Dfc.Tmap smap
       ∧ Dfc.DirectURL member.2 ≠ Url p
       ∧ ev = EvGetClusterMap (Dfc.DirectURL member.2)).
Proof.
  intros r. subst r. split; [|split; [|split; [|apply detectPrimary_asks]]];
    destruct (detectPrimary_cases p)
      as [(found & evs & u & -> & Hd & Hg & Hl)|(err & evs & ->)]; simpl; try done.
  intros _. split; [done|]. by exists found, u.
Qed.

Lemma deliver_step fuel p tl :
  deliver (S fuel) p tl =
    if negb (NewRequest (tokensURL p)) then (Returned, p, [])
    else if deliveryFailed (Do (tokensURL p) tl) then
      match detectPrimary p with
      | (p, Some _, evs) => (Returned, p, EvPost (tokensURL p) tl :: evs)
      | (p', None, evs) =>
        let '(status, p'', evs') := deliver fuel p' tl in
        (status, p'',
         EvPost (tokensURL p) tl :: evs ++ EvSaveSmap (configPath p') p' :: evs')
      end
    else (Returned, p, [EvPost (tokensURL p) tl]).
Proof.
  simpl. unfold tokensURL.
  destruct (negb _); [done|]. destruct (deliveryFailed _); [|done].
  destruct (detectPrimary_cases p)
    as [(found & evs & u & -> & _)|(err & evs & ->)]; done.
Qed.

(** X9.  When the delivery loop of [sendTokensToProxy] returns, then for
    the primary it ends up tracking one of three things holds: no request
    could be built for its address; or the token list was posted to it and
    the post succeeded, as the last thing the loop did; or the post to it
    failed and no other primary could be detected.  When the fuel runs out
    instead, every round has posted once and failed. *)
Theorem deliver_outcome fuel p tl :
  let r := deliver fuel p tl in
  (r.1.1 = Returned →
     NewRequest (tokensURL r.1.2) = false
     ∨ (deliveryFailed (Do (tokensURL r.1.2) tl) = false
        ∧ last r.2 = Some (EvPost (tokensURL r.1.2) tl))
     ∨ (deliveryFailed (Do (tokensURL r.1.2) tl) = true
        ∧ (detectPrimary r.1.2).1.2 ≠ None))
  ∧ (r.1.1 = Running → length (filter (λ ev, isPost ev = true) r.2) = fuel)
  ∧ length (filter (λ ev, isPost ev = true) r.2) ≤ fuel.
Proof.
  revert p. induction fuel as [|fuel IH]; intros p.
  - simpl. split; [done|]. split; [done|lia].
  - intros r. subst r. rewrite deliver_step.
    destruct (NewRequest (tokensURL p)) eqn:Hreq; cbn [negb fst snd].
    2:{ split; [by left|]. split; [done|]. cbn. clear. lia. }
    destruct (deliveryFailed (Do (tokensURL p) tl)) eqn:Hfail; cbn [fst snd].
    2:{ split; [right; by left|]. split; [done|].
        rewrite filter_cons_True by done. cbn. clear. lia. }
    assert (Hprobe : ∀ evs, (∀ ev, ev ∈ evs → ∃ u, ev = EvGetClusterMap u) →
              filter (λ ev, isPost ev = true) evs = []).
    { intros evs Hall. induction evs as [|ev evs IHevs]; [done|].
      destruct (Hall ev) as [u ->]; [apply elem_of_cons; by left|].
      rewrite filter_cons_False by done. apply IHevs.
      intros ev' Hev'. apply Hall, elem_of_cons. by right. }
    assert (Hasks : filter (λ ev, isPost ev = true) (detectPrimary p).2 = []).
    { apply Hprobe. intros ev (smap & member & _ & _ & _ & ->)%detectPrimary_asks.
      by eexists. }
    destruct (detectPrimary_cases p)
      as [(found & evs & u & Hdet & Hd & Hg & Hl)|(err & evs & Hdet)];
      rewrite Hdet in *; cbn [fst snd] in Hasks.
    + specialize (IH (adopt found p)). cbn zeta in IH.
      destruct (deliver fuel (adopt found p) tl) as [[status p''] evs'].
      cbn [fst snd] in *. destruct IH as (IH1 & IH2 & IH3).
      assert (Hcount : length (filter (λ ev, isPost ev = true)
                (EvPost (tokensURL p) tl
                 :: evs ++ EvSaveSmap (configPath (adopt found p)) (adopt found p)
                    :: evs'))
              = S (length (filter (λ ev, isPost ev = true) evs'))).
      { rewrite filter_cons_True by done. rewrite filter_app, Hasks.
        by rewrite filter_cons_False by done. }
      rewrite Hcount. split; [|split; [intros Hs; by rewrite IH2 | lia]].
      intros Hs. destruct (IH1 Hs) as [Hn|[[Hok Hlast]|Hgive]];
        [by left | | by right; right].
      right. left. split; [done|].
      destruct evs' as [|ev' evs']; [done|].
      rewrite last_cons, last_app, last_cons, Hlast. done.
    + cbn [fst snd]. split; [|split; [done|]].
      * intros _. right. right. split; [done|]. by rewrite Hdet.
      * rewrite filter_cons_True by done. cbn [length]. rewrite Hasks. cbn.
        clear. lia.
Qed.

(** X10.  Fail-over: when the post to the tracked primary fails, a member
    names another primary and the post to that one succeeds, the loop
    returns tracking the new primary, having saved the new cluster map
    before it posted the same token list again. *)
Theorem deliver_failover fuel p tl found evs :
  NewRequest (tokensURL p) = true →
  deliveryFailed (Do (tokensURL p) tl) = true →
  detectPrimary p = (adopt found p, None, evs) →
  NewRequest (tokensURL (adopt found p)) = true →
  deliveryFailed (Do (tokensURL (adopt found p)) tl) = false →
  deliver (S (S fuel)) p tl
  = (Returned, adopt found p,
     EvPost (tokensURL p) tl
     :: evs ++ [EvSaveSmap (configPath p) (adopt found p);
                EvPost (tokensURL (adopt found p)) tl]).
Proof.
  intros Hreq Hfail Hdet Hreq' Hok.
  rewrite deliver_step, Hreq, Hfail, Hdet. cbn [negb].
  rewrite deliver_step, Hreq', Hok. done.
Qed.

Lemma sweep_sublist clk k entries toks out :
  (sweep clk k entries toks out).1 `sublist_of` toks.
Proof.
  revert k toks out. induction entries as [|[id rec] rest IH]; intros k toks out.
  - done.
  - simpl. destruct (Before (Expires rec) (clk k)); [|apply IH].
    etrans; [apply IH | apply sublist_filter].
Qed.

Lemma deliver_events fuel p tl :
  let r := deliver fuel p tl in
  (∀ url tl', EvPost url tl' ∈ r.2 → tl' = tl)
  ∧ configPath r.1.2 = configPath p
  ∧ (r.1.2 = p ∨ EvSaveSmap (configPath p) r.1.2 ∈ r.2).
Proof.
  revert p. induction fuel as [|fuel IH]; intros p.
  - simpl. split; [by intros ? ? ?%elem_of_nil|]. split; [done | by left].
  - intros r. subst r. rewrite deliver_step.
    destruct (negb (NewRequest (tokensURL p))); cbn [fst snd].
    { split; [by intros ? ? ?%elem_of_nil|]. split; [done | by left]. }
    destruct (deliveryFailed (Do (tokensURL p) tl)); cbn [fst snd].
    2:{ split; [|split; [done | by left]].
        by intros url tl' [= _ ->]%list_elem_of_singleton. }
    assert (Hasks : ∀ url tl', EvPost url tl' ∉ (detectPrimary p).2).
    { intros url tl' (? & ? & _ & _ & _ & [=])%detectPrimary_asks. }
    destruct (detectPrimary_cases p)
      as [(found & evs & u & Hdet & _)|(err & evs & Hdet)];
      rewrite Hdet in *; cbn [fst snd] in Hasks.
    + specialize (IH (adopt found p)). cbn zeta in IH.
      destruct (deliver fuel (adopt found p) tl) as [[status p''] evs'].
      cbn [fst snd] in *. destruct IH as (IH1 & IH2 & IH3).
      split; [|split; [done|]].
      * intros url tl' [[= _ ->]|[Hin|[[=]|Hin]%elem_of_cons]%elem_of_app]%elem_of_cons;
          [done | by destruct (Hasks url tl') | by eapply IH1].
      * right. apply elem_of_cons. right. apply elem_of_app. right.
        destruct IH3 as [->|Hin]; apply elem_of_cons; [by left | by right].
    + cbn [fst snd]. split; [|split; [done | by left]].
      intros url tl' [[= _ ->]|Hin]%elem_of_cons; [done|].
      by destruct (Hasks url tl').
Qed.

(** X11.  [sendTokensToProxy] leaves the users, the version and the path
    of the manager alone and never adds a token.  Every post of a run
    carries the list of the snapshot, also after a change of primary; the
    path of the proxy file stays; and when the run ends with another proxy
    record than it started with, it has saved that record. *)
Theorem sendTokensToProxy_effects fuel clk m :
  let r := sendTokensToProxy fuel clk m in
  Users r.1.2 = Users m
  ∧ version r.1.2 = version m
  ∧ Path r.1.2 = Path m
  ∧ (∀ entry, entry ∈ tokens r.1.2 → entry ∈ tokens m)
  ∧ (∀ url tl, EvPost url tl ∈ r.2 → tl = (snapshotTokens clk m).2)
  ∧ configPath (mproxy r.1.2) = configPath (mproxy m)
  ∧ (mproxy r.1.2 = mproxy m
     ∨ EvSaveSmap (configPath (mproxy m)) (mproxy r.1.2) ∈ r.2).
Proof.
  unfold sendTokensToProxy. case_decide as Hurl.
  { cbn. split; [done|]. split; [done|]. split; [done|]. split; [done|].
    split; [by intros ? ? ?%elem_of_nil|]. split; [done | by left]. }
  unfold snapshotTokens.
  pose proof (sweep_sublist clk 0 (tokens m) (tokens m) []) as Hsub.
  destruct (sweep clk 0 (tokens m) (tokens m) []) as [toks out]. cbn [fst snd] in *.
  pose proof (deliver_events fuel (mproxy m)
                {| Dfc.Tokens := out; Dfc.Version := version m |}) as Hd.
  cbn zeta in Hd. cbn [mproxy setTokens].
  destruct (deliver fuel (mproxy m) _) as [[status p] evs].
  cbn [fst snd] in *. destruct Hd as (Hposts & Hcfg & Hsave).
  split; [done|]. split; [done|]. split; [done|]. split; [|split; [|split; [done|]]].
  - intros entry Hin. by eapply elem_of_sublist.
  - intros url tl [[=]|Hin]%elem_of_cons. by eapply Hposts.
  - destruct Hsave as [->|Hin]; [by left|]. right. apply elem_of_cons. by right.
Qed.

End authn_delivery.

(** ** The AuthN server: NewProxy *)

Section authn_newProxy.
Import AuthN.
Context `{!Env, !ProxyFile}.

(** X12.  [NewProxy] returns a proxy with the given path.  When the proxy
    file does not load it is the default proxy (the default address, no
    cluster map) and nothing is asked or saved.  When the file loads, the
    result is either the default proxy or a proxy at the primary of the
    cluster map it holds, an address other than the one in the file; the
    address in the file is never kept as it is.  In particular the default
    proxy is returned when no member asked names a primary other than the
    stored one.  The only thing saved is the proxy returned, and only when
    its address is not the default one. *)
Theorem NewProxy_outcome cfgPath defaultUrl :
  let r := NewProxy cfgPath defaultUrl in
  let defProxy := {| Url := defaultUrl; Smap := None; configPath := cfgPath |} in
  configPath r.1 = cfgPath
  ∧ (∀ err, LocalLoadProxy cfgPath = inr err → r = (defProxy, []))
  ∧ (∀ url smap, LocalLoadProxy cfgPath = inl (url, smap) →
       r.1 = defProxy
       ∨ (Url r.1 ≠ url
          ∧ ∃ found, Smap r.1 = Some found
              ∧ Url r.1 = Dfc.DirectURL (Dfc.ProxySI found)))
  ∧ (∀ url smap, LocalLoadProxy cfgPath = inl (url, Some smap) →
       Forall (λ u, ¬ reportsOther url u) (candidates url smap) →
       r.1 = defProxy)
  ∧ (∀ path p, EvSaveSmap path p ∈ r.2 →
       path = cfgPath ∧ p = r.1 ∧ Url r.1 ≠ defaultUrl).
Proof.
  intros r defProxy. subst r defProxy. unfold NewProxy.
  destruct (LocalLoadProxy cfgPath) as [[url smap]|err] eqn:Hload.
  2:{ cbn. split; [done|]. split; [done|]. split; [done|]. split; [done|].
      by intros ? ? ?%elem_of_nil. }
  set (p0 := {| Url := url; Smap := smap; configPath := "" |}).
  assert (Hasks : ∀ path p, EvSaveSmap path p ∉ (detectPrimary p0).2).
  { intros path p (? & ? & _ & _ & _ & [=])%detectPrimary_asks. }
  split; [|split; [done|split; [|split]]].
  - destruct (detectPrimary_cases p0)
      as [(found & evs & u & -> & _)|(err & evs & ->)]; [|done].
    cbn. by case_decide.
  - intros ? ? [= <- <-].
    destruct (detectPrimary_cases p0)
      as [(found & evs & u & -> & Hd & _)|(err & evs & ->)]; [|by left].
    right. cbn. case_decide; cbn; (split; [done | by exists found]).
  - intros url' smap' [= <- ->] Hall.
    assert (Hfail : ∃ err evs, detectPrimary p0 = (p0, Some err, evs)).
    { destruct (decide (Dfc.Pmap smap' ++ Dfc.Tmap smap' = [])) as [Hnil|Hne].
      - unfold detectPrimary. cbn.
        rewrite decide_True; [by eexists _, _|].
        by rewrite <- length_app, Hnil.
      - rewrite (detectPrimary_one_pass p0 smap' eq_refl Hne). cbn.
        rewrite candidates_asked in Hall.
        rewrite (probeMembers_none _ _ Hall). by eexists _, _. }
    destruct Hfail as (err & evs & ->). done.
  - intros path p.
    destruct (detectPrimary_cases p0)
      as [(found & evs & u & Hdet & _)|(err & evs & Hdet)];
      rewrite Hdet in *; cbn [fst snd] in Hasks.
    + cbn. case_decide as Hne; cbn.
      * intros [Hin|[= -> ->]%list_elem_of_singleton]%elem_of_app;
          [by destruct (Hasks path p) | done].
      * intros Hin. by destruct (Hasks path p).
    + cbn. intros Hin. by destruct (Hasks path p).
Qed.

End authn_newProxy.

(** ** The AuthN server: start-up and the token strings *)

Section authn_startup.
Import Jwt AuthN.
Context `{!Lib, !Env}.

(** What the AuthN [decryptToken] does once [jwt.Parse] has returned a
    valid token with map claims. *)
Lemma authn_decryptToken_parsed tokenStr token claims :
  Parse tokenStr (keyFunc AuthSecret) = inl token →
  Claims token = Some claims →
  Valid token = true →
  decryptToken tokenStr =
    match asString (claims !! "username"),
          timestamp (claims !! "issued"),
          timestamp (claims !! "expires") with
    | Some username, Some issuedAt, Some expiresAt =>
      inl {| tUserID := username; Issued := issuedAt;
             Expires := expiresAt; Token := tokenStr |}
    | _, _, _ => inr ErrInvalidToken
    end.
Proof.
  intros HP HC HV. unfold decryptToken, timestamp.
  rewrite HP. simpl. rewrite HC, HV.
  destruct (asString (claims !! "username")) as [username|]; simpl; [|done].
  destruct (asString (claims !! "issued")) as [issueStr|]; simpl; [|done].
  destruct (parseRFC822 issueStr) as [issuedAt|]; simpl; [|done].
  destruct (asString (claims !! "expires")) as [expireStr|]; simpl; [|done].
  destruct (parseRFC822 expireStr) as [expiresAt|]; simpl; done.
Qed.

(** X13.  The two copies of [decryptToken], the one of AuthN and the one
    of the proxy, agree when they use the same secret: they fail on the
    same token strings, with the same error, and on the others they read
    the same user, issue time and expiry; the AuthN copy keeps the token
    string itself. *)
Theorem decryptToken_copies_agree tokenStr :
  match decryptToken tokenStr, Dfc.decryptToken AuthSecret tokenStr with
  | inl tinfo, inl rec =>
    tUserID tinfo = Dfc.userID rec ∧ Issued tinfo = Dfc.issued rec
    ∧ Expires tinfo = Dfc.expires rec ∧ Token tinfo = tokenStr
  | inr err, inr err' => err = err'
  | _, _ => False
  end.
Proof.
  destruct (Parse tokenStr (keyFunc AuthSecret)) as [token|err] eqn:HP.
  2:{ unfold decryptToken, Dfc.decryptToken. by rewrite HP. }
  destruct (Claims token) as [claims|] eqn:HC.
  2:{ unfold decryptToken, Dfc.decryptToken. rewrite HP. simpl. by rewrite HC. }
  destruct (Valid token) eqn:HV.
  2:{ unfold decryptToken, Dfc.decryptToken. rewrite HP. simpl. by rewrite HC, HV. }
  rewrite (authn_decryptToken_parsed _ _ _ HP HC HV).
  rewrite (decryptToken_parsed AuthSecret _ _ _ HP HC HV).
  destruct (asString (claims !! "username")),
    (timestamp (claims !! "issued")), (timestamp (claims !! "expires")); done.
Qed.

Lemma decryptToken_keeps_string tokenStr tinfo :
  decryptToken tokenStr = inl tinfo → Token tinfo = tokenStr.
Proof.
  unfold decryptToken. destruct (Parse _ _) as [token|]; [simpl|done].
  destruct (Claims token) as [claims|]; [|done]. destruct (Valid token); [|done].
  destruct (asString (claims !! "username")); simpl; [|done].
  destruct (asString (claims !! "issued")) as [s1|]; simpl; [|done].
  destruct (parseRFC822 s1); simpl; [|done].
  destruct (asString (claims !! "expires")) as [s2|]; simpl; [|done].
  destruct (parseRFC822 s2); simpl; [|done].
  by intros [= <-].
Qed.

(** X14.  A token that [issueToken] signs comes back from [decryptToken]
    under the same user ID and with the same string, provided [jwt.Parse]
    accepts the string and returns the [username], [issued] and [expires]
    claims that were signed; the issue time and the expiry are then the
    instants that [time.Parse] reads back from their formatted form (the
    stored ones when the format round-trips).  So the entry that
    [newUserManager] rebuilds from the persisted string is stored under the
    same user. *)
Theorem issued_token_decrypts issuedAt userID creds tokenString token claims
    issuedBack expiresBack :
  SignedString (tokenClaims issuedAt userID creds) AuthSecret = inl tokenString →
  Parse tokenString (keyFunc AuthSecret) = inl token →
  Claims token = Some claims →
  Valid token = true →
  (∀ k : string, k ≠ "creds" →
     claims !! k = tokenClaims issuedAt userID creds !! k) →
  parseRFC822 (formatRFC822 issuedAt) = Some issuedBack →
  parseRFC822 (formatRFC822 (issuedAt + ExpirePeriod)%Z) = Some expiresBack →
  decryptToken tokenString
  = inl {| tUserID := userID; Issued := issuedBack;
           Expires := expiresBack; Token := tokenString |}
  ∧ loadTokens [tokenString] []
    = [(userID, {| tUserID := userID; Issued := issuedBack;
                   Expires := expiresBack; Token := tokenString |})]
  ∧ (issuedBack = issuedAt → expiresBack = (issuedAt + ExpirePeriod)%Z →
     decryptToken tokenString = inl (mintedToken issuedAt userID tokenString)).
Proof.
  intros _ HP HC HV Hsame Hi He.
  assert (Hdec : decryptToken tokenString
                 = inl {| tUserID := userID; Issued := issuedBack;
                          Expires := expiresBack; Token := tokenString |}).
  { rewrite (authn_decryptToken_parsed _ _ _ HP HC HV).
    unfold timestamp. rewrite !Hsame by done. unfold tokenClaims.
    rewrite lookup_insert_ne, lookup_insert_ne, lookup_insert_eq by done.
    rewrite lookup_insert_eq. rewrite lookup_insert_ne, lookup_insert_eq by done.
    simpl. by rewrite Hi, He. }
  split; [done|]. split.
  - simpl. by rewrite Hdec.
  - intros -> ->. done.
Qed.

(** The loop of [newUserManager] admits only what decrypts. *)
Lemma loadTokens_admits tokenStrs toks entry :
  entry ∈ loadTokens tokenStrs toks →
  entry ∈ toks
  ∨ (Token entry.2 ∈ tokenStrs
     ∧ decryptToken (Token entry.2) = inl entry.2
     ∧ entry.1 = tUserID entry.2).
Proof.
  revert toks. induction tokenStrs as [|tstr rest IH]; intros toks; simpl.
  - by left.
  - assert (Hlater : entry ∈ toks
              ∨ (Token entry.2 ∈ rest
                 ∧ decryptToken (Token entry.2) = inl entry.2
                 ∧ entry.1 = tUserID entry.2) →
            entry ∈ toks
              ∨ (Token entry.2 ∈ tstr :: rest
                 ∧ decryptToken (Token entry.2) = inl entry.2
                 ∧ entry.1 = tUserID entry.2)).
    { intros [?|(? & ? & ?)]; [by left|]. right.
      split; [apply elem_of_cons; by right | done]. }
    destruct (decryptToken tstr) as [tinfo|err] eqn:Hdec.
    + intros [[[Hin _]| ->]%elem_of_rinsert|Hnew]%IH.
      * by left.
      * right. simpl. rewrite (decryptToken_keeps_string _ _ Hdec).
        split; [apply elem_of_cons; by left | done].
      * apply Hlater. by right.
    + intros Hin. by apply Hlater, IH.
Qed.

(** X15.  [newUserManager] never admits a token it cannot verify: in the
    manager it returns, every token comes from the persisted token list,
    decrypts to exactly the stored record and is stored once under the user
    ID it names; and the decoded password of every user is the decoding of
    the stored one. *)
Theorem newUserManager_admits dbPath p mgr :
  newUserManager dbPath p = Started mgr →
  keyedByOwner (tokens mgr)
  ∧ (∀ entry, entry ∈ tokens mgr →
       decryptToken (Token entry.2) = inl entry.2
       ∧ ∃ tokenList, LocalLoadTokens (dbPath +:+ ".tokens") = inl tokenList
           ∧ Token entry.2 ∈ Dfc.Tokens tokenList)
  ∧ (∀ id user, Users mgr !! id = Some user →
       DecodeString (Password user) = Some (passwordDecoded user)).
Proof.
  unfold newUserManager. destruct (Stat dbPath) eqn:Hstat; [| |done].
  2:{ intros [= <-]. simpl. split; [|split].
      - split; [apply NoDup_nil_2 | by intros ? ?%elem_of_nil].
      - by intros ? ?%elem_of_nil.
      - intros id user. by rewrite lookup_empty. }
  destruct (LocalLoadUsers dbPath) as [users|err]; [|done]. simpl.
  assert (Husers :
            map_Forall (λ _ info, is_Some (DecodeString (Password info))) users →
            ∀ id user, (decodePassword <$> users) !! id = Some user →
              DecodeString (Password user) = Some (passwordDecoded user)).
  { intros Hall id user (info & <- & Hinfo)%lookup_fmap_Some.
    destruct (Hall id info Hinfo) as [pw Hpw]. simpl. by rewrite Hpw. }
  destruct (LocalLoadTokens (dbPath +:+ ".tokens")) as [tokenList|err] eqn:Hload;
    simpl; case_decide as Hall; try done; intros [= <-]; simpl.
  - split; [|split].
    + split; [apply loadTokens_wf, NoDup_nil_2|].
      intros entry [?%elem_of_nil|(_ & _ & Hkey)]%loadTokens_admits; done.
    + intros entry [?%elem_of_nil|(Hin & Hdec & _)]%loadTokens_admits; [done|].
      split; [done|]. by exists tokenList.
    + intros id user Hu. by eapply Husers.
  - split; [|split].
    + split; [apply NoDup_nil_2 | by intros ? ?%elem_of_nil].
    + by intros ? ?%elem_of_nil.
    + intros id user Hu. by eapply Husers.
Qed.

(** X16.  What stops start-up and what does not: [newUserManager] ends in
    a fatal error exactly when [os.Stat] fails for another reason than a
    missing file, or the user file exists and does not load, or it loads
    and holds a password that does not decode.  A token file that does not
    load is no reason: the manager then starts with the users of the file,
    no tokens and version 1. *)
Theorem newUserManager_fatal dbPath p :
  ((∃ msg, newUserManager dbPath p = Fatal msg)
   ↔ (∃ msg, Stat dbPath = StatError msg)
     ∨ (Stat dbPath = StatOK
        ∧ ((∃ err, LocalLoadUsers dbPath = inr err)
           ∨ ∃ users id info,
               LocalLoadUsers dbPath = inl users ∧ users !! id = Some info
               ∧ DecodeString (Password info) = None)))
  ∧ (∀ users err,
       Stat dbPath = StatOK →
       LocalLoadUsers dbPath = inl users →
       LocalLoadTokens (dbPath +:+ ".tokens") = inr err →
       map_Forall (λ _ info, is_Some (DecodeString (Password info))) users →
       newUserManager dbPath p
       = Started {| Path := dbPath; Users := decodePassword <$> users;
                    tokens := []; version := 1; mproxy := p |}).
Proof.
  unfold newUserManager. split.
  - destruct (Stat dbPath) eqn:Hstat.
    + destruct (LocalLoadUsers dbPath) as [users|err] eqn:Husers.
      * simpl. set (mgr := match LocalLoadTokens _ with inl _ => _ | inr _ => _ end).
        assert (Hu : Users mgr = users).
        { subst mgr. by destruct (LocalLoadTokens _). }
        rewrite Hu. case_decide as Hall.
        -- split; [by intros [? [=]]|].
           intros [[? [=]]|[_ [[? [=]]|(users' & id & info & [= <-] & Hi & Hnone)]]].
           destruct (Hall id info Hi) as [? Hsome]. congruence.
        -- split; [|by eexists]. intros _. right. split; [done|]. right.
           apply map_not_Forall in Hall as (id & info & Hi & Hno); [|apply _].
           exists users, id, info. split; [done|]. split; [done|].
           destruct (DecodeString (Password info)); [|done].
           destruct Hno. by eexists.
      * split; [|by eexists]. intros _. right. split; [done|]. left. by eexists.
    + split; [by intros [? [=]]|].
      intros [[? [=]]|[[=] _]].
    + split; [|by eexists]. intros _. left. by eexists.
  - intros users err -> -> . simpl. intros -> Hall. simpl.
    by rewrite decide_True.
Qed.

End authn_startup.

(** ** Package dfc: the table of valid tokens *)

Section dfc_manager.
Import Jwt DfcAuth.
Context `{!Lib}.
Variable Secret : string.
Implicit Types (a : authManager) (clk : Clock).

(** X17.  [validateToken] never changes the version of the table and
    never adds a token.  An unknown token gives "Token not found" and no
    change; a token that has not expired gives its record and no change;
    an expired token gives "Token expired" and is deleted, and from then on
    the same token gives "Token not found", whatever the clock says. *)
Theorem validateToken_outcome clk a token :
  let r := validateToken clk a token in
  tokensVersion r.1 = tokensVersion a
  ∧ (∀ t rec, tokens r.1 !! t = Some rec → tokens a !! t = Some rec)
  ∧ (tokens a !! token = None → r = (a, inr ErrTokenNotFound))
  ∧ (∀ auth, tokens a !! token = Some auth →
       Before (Dfc.expires auth) (clk 0) = false → r = (a, inl auth))
  ∧ (∀ auth, tokens a !! token = Some auth →
       Before (Dfc.expires auth) (clk 0) = true →
       r.2 = inr ErrTokenExpired
       ∧ tokens r.1 = delete token (tokens a)
       ∧ ∀ clk', validateToken clk' r.1 token = (r.1, inr ErrTokenNotFound)).
Proof.
  unfold validateToken. destruct (tokens a !! token) as [auth|] eqn:Hlook.
  - destruct (Before (Dfc.expires auth) (clk 0)) eqn:Hb; simpl.
    + split; [done|]. split; [|split; [done|split]].
      * intros t rec Hrec. destruct (decide (token = t)) as [->|Hne].
        -- by rewrite lookup_delete_eq in Hrec.
        -- by rewrite lookup_delete_ne in Hrec.
      * intros ? [= <-]. congruence.
      * intros ? _ _. split; [done|]. split; [done|]. intros clk'.
        by rewrite lookup_delete_eq.
    + split; [done|]. split; [done|]. split; [done|]. split.
      * by intros ? [= <-].
      * intros ? [= <-]. congruence.
  - simpl. by repeat split.
Qed.

(** What the table of a successful [newAuthList] holds. *)
Lemma decryptAll_table toks auth0 auth :
  Dfc.decryptAll Secret toks auth0 = inl auth →
  ∀ t, auth !! t =
    if decide (t ∈ toks)
    then match Dfc.decryptToken Secret t with
         | inl rec => Some rec
         | inr _ => None
         end
    else auth0 !! t.
Proof.
  intros Hall.
  destruct (decryptAll_succeeds Secret toks auth0) as (auth' & Heq & Hlook).
  - apply Forall_forall. intros t Hin Herr.
    pose proof (decryptAll_fails Secret toks auth0) as Hfails.
    rewrite Hall in Hfails. apply Hfails. by exists t.
  - rewrite Hall in Heq. by injection Heq as <-.
Qed.

Lemma newAuthList_table tokenList auth v :
  Dfc.newAuthList Secret (Some tokenList) = (Some auth, v, None) →
  (∀ t, auth !! t =
     if decide (t ∈ Dfc.Tokens tokenList)
     then match Dfc.decryptToken Secret t with
          | inl rec => Some rec
          | inr _ => None
          end
     else None)
  ∧ (∀ t, t ∈ Dfc.Tokens tokenList → ¬ isErr (Dfc.decryptToken Secret t)).
Proof.
  unfold Dfc.newAuthList. case_decide as Hlen.
  - intros [= <- <-]. apply nil_length_inv in Hlen. rewrite Hlen.
    split; [|by intros ? ?%elem_of_nil].
    intros t. rewrite lookup_empty. by rewrite decide_False by apply not_elem_of_nil.
  - destruct (Dfc.decryptAll Secret (Dfc.Tokens tokenList) ∅) as [auth'|err] eqn:Hall;
      [|done].
    intros [= <- <-]. split.
    + intros t. rewrite (decryptAll_table _ _ _ Hall t).
      case_decide; [done | apply lookup_empty].
    + intros t Hin Herr.
      pose proof (decryptAll_fails Secret (Dfc.Tokens tokenList) ∅) as Hfails.
      rewrite Hall in Hfails. apply Hfails. by exists t.
Qed.

(** X18.  The proxy accepts exactly what AuthN pushed: with the table and
    version that [newAuthList] returns for a pushed list, [validateToken]
    answers "Token not found" for every string that is not in the list, and
    for a string of the list it answers with the record [decryptToken]
    reads from it, or "Token expired" when that record has expired. *)
Theorem pushed_token_validates tokenList auth v clk token :
  Dfc.newAuthList Secret (Some tokenList) = (Some auth, v, None) →
  let a := {| tokens := auth; tokensVersion := v |} in
  (token ∉ Dfc.Tokens tokenList →
     validateToken clk a token = (a, inr ErrTokenNotFound))
  ∧ (token ∈ Dfc.Tokens tokenList →
     ∃ rec, Dfc.decryptToken Secret token = inl rec
       ∧ (Before (Dfc.expires rec) (clk 0) = false →
          validateToken clk a token = (a, inl rec))
       ∧ (Before (Dfc.expires rec) (clk 0) = true →
          (validateToken clk a token).2 = inr ErrTokenExpired)).
Proof.
  intros [Htable Hok]%newAuthList_table a. subst a. unfold validateToken. simpl.
  rewrite Htable. split.
  - intros Hnin. by rewrite decide_False.
  - intros Hin. rewrite decide_True by done.
    destruct (not_isErr_inv _ (Hok token Hin)) as [rec ->].
    exists rec. split; [done|]. by split; intros ->.
Qed.

(** X19.  Cloning the table and converting the clone gives the table
    back: when every token of the table decrypts to its record, as it does
    in a table made by [newAuthList], then [newAuthList] on the list that
    [cloneL] returns, in whatever order its keys come, returns the same
    table and the same version.  An empty table is the exception for the
    version: it comes back with version 1. *)
Theorem cloneL_newAuthList a tokenList :
  (∀ t rec, tokens a !! t = Some rec → Dfc.decryptToken Secret t = inl rec) →
  Dfc.Tokens tokenList ≡ₚ Dfc.Tokens (cloneL a) →
  Dfc.Version tokenList = Dfc.Version (cloneL a) →
  (tokens a ≠ ∅ →
     Dfc.newAuthList Secret (Some tokenList)
     = (Some (tokens a), tokensVersion a, None))
  ∧ (tokens a = ∅ →
     Dfc.newAuthList Secret (Some tokenList) = (Some ∅, 1%Z, None)).
Proof.
  intros Hdec Hperm Hver. simpl in Hperm, Hver.
  assert (Hkeys : ∀ t, t ∈ Dfc.Tokens tokenList ↔ is_Some (tokens a !! t)).
  { intros t. rewrite Hperm, list_elem_of_fmap. split.
    - intros ([k rec] & -> & Hin%elem_of_map_to_list). by eexists.
    - intros [rec Hrec]. exists (t, rec). split; [done|].
      by apply elem_of_map_to_list. }
  split.
  - intros Hne. unfold Dfc.newAuthList.
    rewrite decide_False.
    2:{ intros Hlen%nil_length_inv. apply Hne. apply map_eq. intros t.
        rewrite lookup_empty. destruct (tokens a !! t) eqn:Ht; [|done].
        assert (Hin : t ∈ Dfc.Tokens tokenList) by (apply Hkeys; by eexists).
        rewrite Hlen in Hin. by apply elem_of_nil in Hin. }
    destruct (decryptAll_succeeds Secret (Dfc.Tokens tokenList) ∅)
      as (auth & -> & Hlook).
    { apply Forall_forall. intros t [rec Hrec]%Hkeys.
      rewrite (Hdec t rec Hrec). apply isErr_inl. }
    rewrite Hver. f_equal. f_equal. f_equal. apply map_eq. intros t.
    rewrite Hlook. case_decide as Hin.
    + apply Hkeys in Hin as [rec Hrec]. by rewrite (Hdec t rec Hrec), Hrec.
    + rewrite lookup_empty. destruct (tokens a !! t) eqn:Ht; [|done].
      destruct Hin. apply Hkeys. by eexists.
  - intros Hempty. unfold Dfc.newAuthList. rewrite decide_True; [done|].
    destruct (Dfc.Tokens tokenList) as [|t rest] eqn:Hl; [done|].
    assert (Hin : t ∈ t :: rest) by (apply elem_of_cons; by left).
    apply Hkeys in Hin as [rec Hrec]. by rewrite Hempty, lookup_empty in Hrec.
Qed.

End dfc_manager.

(** ** The AuthN server: what every sequence of calls keeps *)

Section authn_sequences.
Import Jwt AuthN.
Context `{!Lib, !Env}.
Implicit Types (m : userManager) (toks : tokenMap) (c : call).

Lemma keyedByOwner_sublist toks toks' :
  toks' `sublist_of` toks → keyedByOwner toks → keyedByOwner toks'.
Proof.
  intros Hsub [Hwf Hkey]. split.
  - unfold wfMap in *. eapply sublist_NoDup; [exact Hwf|]. by apply fmap_sublist.
  - intros entry Hin. apply Hkey. by eapply elem_of_sublist.
Qed.

Lemma keyedByOwner_rinsert toks id v :
  tUserID v = id → keyedByOwner toks → keyedByOwner (rinsert id v toks).
Proof.
  intros Hv [Hwf Hkey]. split; [by apply wfMap_rinsert|].
  intros entry [[Hin _]| ->]%elem_of_rinsert; [by apply Hkey | done].
Qed.

Lemma rdelete_sublist toks id : rdelete id toks `sublist_of` toks.
Proof. apply sublist_filter. Qed.

(** The token table after one call: a part of the table before, or such a
    part with a token signed for a registered user put under the user's
    ID. *)
Lemma after_tokens c m :
  tokens (after c m) `sublist_of` tokens m
  ∨ ∃ userID issuedAt tokenString toks0,
      toks0 `sublist_of` tokens m
      ∧ tokens (after c m)
        = rinsert userID (mintedToken issuedAt userID tokenString) toks0
      ∧ is_Some (Users m !! userID)
      ∧ Users (after c m) = Users m.
Proof.
  destruct c as [userID userPass|userID|clk userID pwd|token|clk token|fuel clk];
    simpl.
  - left. unfold addUser. case_decide; [done|].
    destruct (Users m !! userID); [done|]. apply rdelete_sublist.
  - left. unfold delUser. destruct (Users m !! userID); [|done]. simpl.
    case_bool_decide; apply rdelete_sublist.
  - unfold issueToken. destruct (Users m !! userID) as [user|] eqn:Hu; [|by left].
    case_decide; [by left|].
    assert (Hmint : ∀ issuedAt m0,
              tokens m0 `sublist_of` tokens m → Users m0 = Users m →
              tokens (mintToken issuedAt m0 userID (Creds user)).1.1
                `sublist_of` tokens m
              ∨ ∃ userID' issuedAt' tokenString toks0,
                  toks0 `sublist_of` tokens m
                  ∧ tokens (mintToken issuedAt m0 userID (Creds user)).1.1
                    = rinsert userID' (mintedToken issuedAt' userID' tokenString) toks0
                  ∧ is_Some (Users m !! userID')
                  ∧ Users (mintToken issuedAt m0 userID (Creds user)).1.1 = Users m).
    { intros issuedAt m0 Hsub Hus. unfold mintToken.
      destruct (SignedString _ _) as [tokenString|err]; simpl; [|by left].
      right. exists userID, issuedAt, tokenString, (tokens m0).
      split; [done|]. split; [done|]. split; [by rewrite Hu | done]. }
    destruct (rlookup userID (tokens m)) as [token|]; [|by apply Hmint].
    destruct (After (Expires token) (clk 0)); [by left|].
    apply Hmint; [apply rdelete_sublist | done].
  - left. unfold revokeToken.
    destruct (findToken token (tokens m)) as [[id info]|]; [|done].
    apply rdelete_sublist.
  - left. unfold userByToken.
    destruct (findToken token (tokens m)) as [[id info]|]; [|done].
    destruct (Before (Expires info) (clk 0)); [apply rdelete_sublist|].
    by destruct (Users m !! id).
  - left. unfold sendTokensToProxy. case_decide; [done|]. unfold snapshotTokens.
    pose proof (sweep_sublist clk 0 (tokens m) (tokens m) []) as Hsub.
    destruct (sweep clk 0 (tokens m) (tokens m) []) as [toks out].
    by destruct (deliver fuel _ _) as [[status p] evs].
Qed.

(** The users after one call: as before, or with the user of an [addUser]
    added, or with the user of a [delUser] gone together with the tokens
    under the ID. *)
Lemma after_users c m id :
  is_Some (Users m !! id) →
  is_Some (Users (after c m) !! id)
  ∨ ∀ entry, entry ∈ tokens (after c m) → entry.1 ≠ id.
Proof.
  intros Hid.
  destruct c as [userID userPass|userID|clk userID pwd|token|clk token|fuel clk];
    simpl.
  - left. unfold addUser. case_decide; [done|].
    destruct (Users m !! userID) eqn:Hu; [done|]. simpl.
    destruct (decide (userID = id)) as [->|Hne];
      [by rewrite lookup_insert_eq | by rewrite lookup_insert_ne].
  - unfold delUser. destruct (Users m !! userID) eqn:Hu; [|by left].
    destruct (decide (userID = id)) as [->|Hne].
    + right. intros entry. simpl. case_bool_decide; simpl;
        by intros [_ ?]%elem_of_rdelete.
    + left. simpl. case_bool_decide; simpl; by rewrite lookup_delete_ne.
  - left. unfold issueToken, mintToken.
    destruct (Users m !! userID); [|done]. case_decide; [done|].
    destruct (rlookup userID (tokens m)) as [tok|].
    + destruct (After (Expires tok) (clk 0)); [done|].
      by destruct (SignedString _ _).
    + by destruct (SignedString _ _).
  - left. unfold revokeToken.
    by destruct (findToken token (tokens m)) as [[? ?]|].
  - left. unfold userByToken.
    destruct (findToken token (tokens m)) as [[i info]|]; [|done].
    destruct (Before (Expires info) (clk 0)); [done|].
    by destruct (Users m !! i).
  - left. unfold sendTokensToProxy. case_decide; [done|]. unfold snapshotTokens.
    destruct (sweep clk 0 (tokens m) (tokens m) []) as [toks out].
    by destruct (deliver fuel _ _) as [[status p] evs].
Qed.

Lemma after_keyed c m :
  keyedByOwner (tokens m) → keyedByOwner (tokens (after c m)).
Proof.
  intros Hk.
  destruct (after_tokens c m) as [Hsub|(u & t & s & toks0 & Hsub & -> & _)].
  - by eapply keyedByOwner_sublist.
  - apply keyedByOwner_rinsert; [done|]. by eapply keyedByOwner_sublist.
Qed.

Lemma after_owners c m :
  ownersRegistered m → ownersRegistered (after c m).
Proof.
  intros Hown entry Hin.
  assert (Hold : entry ∈ tokens m → is_Some (Users (after c m) !! entry.1)).
  { intros Hm. destruct (after_users c m entry.1 (Hown entry Hm)) as [?|Hgone];
      [done|]. by destruct (Hgone entry Hin). }
  destruct (after_tokens c m) as [Hsub|(u & t & s & toks0 & Hsub & Heq & Hu & Hus)].
  - apply Hold. by eapply elem_of_sublist.
  - rewrite Heq in Hin. apply elem_of_rinsert in Hin as [[Hin0 _]| ->].
    + apply Hold. by eapply elem_of_sublist.
    + simpl. by rewrite Hus.
Qed.

(** X20.  Starting from a manager in which every token is stored under
    the ID of its user and every such user is registered (the manager over
    a missing user file is one), every sequence of calls of [addUser],
    [delUser], [issueToken], [revokeToken], [userByToken] and
    [sendTokensToProxy] ends in such a manager again.  So in such runs
    [userByToken] never answers "Invalid token". *)
Theorem afterAll_tokens_have_owners cs m :
  keyedByOwner (tokens m) →
  ownersRegistered m →
  keyedByOwner (tokens (afterAll cs m))
  ∧ ownersRegistered (afterAll cs m)
  ∧ ∀ clk token, (userByToken clk (afterAll cs m) token).2 ≠ inr ErrInvalidToken.
Proof.
  revert m. induction cs as [|c cs IH]; intros m Hk Hown.
  - split; [done|]. split; [done|]. intros clk token. unfold userByToken. simpl.
    destruct (findToken token (tokens m)) as [[id info]|] eqn:Hfind; [|done].
    destruct (Before (Expires info) (clk 0)); [done|].
    apply findToken_Some in Hfind as [Hin _].
    destruct (Hown (id, info) Hin) as [user Huser]. simpl in Huser.
    by rewrite Huser.
  - apply (IH (after c m)); [by apply after_keyed | by apply after_owners].
Qed.

(** One call leaves the version or advances it by one step. *)
Lemma after_version c m :
  version (after c m) = version m ∨ version (after c m) = incr64 (version m).
Proof.
  destruct c as [userID userPass|userID|clk userID pwd|token|clk token|fuel clk];
    simpl.
  - left. apply addUser_version.
  - unfold delUser. destruct (Users m !! userID); [|by left]. simpl.
    case_bool_decide; [by right | by left].
  - unfold issueToken, mintToken.
    destruct (Users m !! userID); [|by left]. case_decide; [by left|].
    destruct (rlookup userID (tokens m)) as [tok|].
    + destruct (After (Expires tok) (clk 0)); [by left|].
      destruct (SignedString _ _); [by right | by left].
    + destruct (SignedString _ _); [by right | by left].
  - unfold revokeToken.
    destruct (findToken token (tokens m)) as [[? ?]|]; [by right | by left].
  - left. unfold userByToken.
    destruct (findToken token (tokens m)) as [[i info]|]; [|done].
    destruct (Before (Expires info) (clk 0)); [done|].
    by destruct (Users m !! i).
  - left. unfold sendTokensToProxy. case_decide; [done|]. unfold snapshotTokens.
    destruct (sweep clk 0 (tokens m) (tokens m) []) as [toks out].
    by destruct (deliver fuel _ _) as [[status p] evs].
Qed.

(** X21.  The version never goes back: as long as it stays below the
    largest [int64], the version after a sequence of calls is at least the
    version before and exceeds it by at most the number of calls. *)
Theorem afterAll_version (cs : list call) m :
  is_int64 (version m) →
  (version m + Z.of_nat (length cs) ≤ int64_max)%Z →
  (version m ≤ version (afterAll cs m) ≤ version m + Z.of_nat (length cs))%Z.
Proof.
  revert m. induction cs as [|c cs IH]; intros m Hv Hmax.
  - simpl. lia.
  - change (afterAll (c :: cs) m) with (afterAll cs (after c m)).
    rewrite length_cons in *.
    assert (Hstep : version (after c m) = version m
                    ∨ version (after c m) = (version m + 1)%Z).
    { destruct (after_version c m) as [?|Hs]; [by left|]. right.
      rewrite Hs. apply incr64_succ; [done | lia]. }
    assert (Hv' : is_int64 (version (after c m))).
    { unfold is_int64 in *. unfold int64_min, int64_max in *.
      destruct Hstep as [->| ->]; lia. }
    specialize (IH (after c m) Hv'). destruct Hstep as [Hs|Hs]; rewrite Hs in *; lia.
Qed.

End authn_sequences.

(** ** Runs in the sample world *)

Section sample_runs.
Import AuthN AuthN.Sample.

Lemma decryptToken_creds_never_fails_witness :
let token := Jwt.mkToken (Jwt.SigningMethodHMAC "HS256")
    (Some (AuthN.Sample.claimsOf "user2"
             (Some (Jwt.VObject [("aws", Jwt.VString "aws-01")])))) true in
Jwt.Parse "tok-user2" (Jwt.keyFunc "secret") = inl token
∧ Jwt.Valid token = true
∧ ∀ rec, Dfc.decryptToken "secret" "tok-user2" = inl rec → Dfc.creds rec = ∅.
Proof.
intros token.
assert (HP : Jwt.Parse "tok-user2" (Jwt.keyFunc "secret") = inl token)
  by reflexivity.
assert (HV : Jwt.Valid token = true) by reflexivity.
split; [exact HP|]. split; [exact HV|].
destruct (decryptToken_creds_never_fails "secret" "tok-user2" token _
            HP eq_refl HV) as (_ & _ & Hempty & _).
apply Hempty. reflexivity.
Defined.

Lemma newAuthList_all_or_nothing_witness :
let tl := Dfc.mkTokenList ["tok-user2"; "tok-user3"] 5%Z in
isErr (Dfc.decryptToken "secret" "tok-user3")
∧ ∃ err, Dfc.newAuthList "secret" (Some tl) = (None, 0%Z, Some err).
Proof.
intros tl.
assert (Hbad : isErr (Dfc.decryptToken "secret" "tok-user3")) by exact I.
split; [exact Hbad|].
destruct (newAuthList_all_or_nothing "secret" (Some tl)) as (_ & Hfail & _).
apply (Hfail tl eq_refl). exists "tok-user3". split; [|exact Hbad].
apply elem_of_cons. right. apply elem_of_cons. left. reflexivity.
Defined.

Lemma issueToken_reissue_or_reject_witness :
  Users oneToken !! "user2" = Some user2
  ∧ AuthN.passwordDecoded user2 = "pass1"
  ∧ rlookup "user2" (AuthN.tokens oneToken) = Some (token2 630%Z)
  ∧ After (AuthN.Expires (token2 630%Z)) 610%Z = true
  ∧ AuthN.issueToken (λ _, 610%Z) oneToken "user2" "pass1"
    = (oneToken, inl "tok-user2", false).
Proof.
  assert (H1 : Users oneToken !! "user2" = Some user2) by reflexivity.
  assert (H2 : AuthN.passwordDecoded user2 = "pass1") by reflexivity.
  assert (H3 : rlookup "user2" (AuthN.tokens oneToken) = Some (token2 630%Z))
    by reflexivity.
  assert (H4 : After (AuthN.Expires (token2 630%Z)) 610%Z = true) by reflexivity.
  repeat (split; [assumption|]).
  exact (proj1 (issueToken_reissue_or_reject (λ _, 610%Z) oneToken "user2" "pass1")
               user2 (token2 630%Z) H1 H2 H3 H4).
Defined.

Lemma oneToken_entries (entry : string * AuthN.tokenInfo) :
  entry ∈ AuthN.tokens oneToken → entry = ("user2", token2 630%Z).
Proof. intros Hin. by apply list_elem_of_singleton in Hin. Defined.

Lemma oneToken_has :
  ∃ entry, entry ∈ AuthN.tokens oneToken ∧ AuthN.hasToken "tok-user2" entry.
Proof.
  exists ("user2", token2 630%Z).
  split; [by apply list_elem_of_singleton | reflexivity].
Defined.

Lemma userByToken_failures_witness :
  (∃ entry, entry ∈ AuthN.tokens oneToken ∧ AuthN.hasToken "tok-user2" entry)
  ∧ ∃ id info,
      (id, info) ∈ AuthN.tokens oneToken
      ∧ AuthN.userByToken (λ _, 700%Z) oneToken "tok-user2"
        = (AuthN.setTokens (rdelete id (AuthN.tokens oneToken)) oneToken,
           inr ErrTokenExpired)
      ∧ AuthN.version (AuthN.userByToken (λ _, 700%Z) oneToken "tok-user2").1 = 4%Z.
Proof.
  split; [exact oneToken_has|].
  destruct (proj1 (userByToken_failures (λ _, 700%Z) oneToken "tok-user2")
              oneToken_has) as (id & info & Hin & _ & Heq & _ & Hv & _).
  - intros entry Hin _. rewrite (oneToken_entries entry Hin). reflexivity.
  - exists id, info. split; [exact Hin|]. split; [exact Heq | exact Hv].
Defined.

Lemma oneToken_wf : wfMap (AuthN.tokens oneToken).
Proof. apply NoDup_singleton. Defined.

Lemma revokeToken_iff_stored_witness :
  is_int64 (AuthN.version oneToken)
  ∧ wfMap (AuthN.tokens oneToken)
  ∧ AuthN.version (AuthN.revokeToken oneToken "tok-user2").1 = 5%Z.
Proof.
  assert (Hv : is_int64 (AuthN.version oneToken))
    by (unfold is_int64, int64_min, int64_max; simpl; lia).
  split; [exact Hv|]. split; [exact oneToken_wf|].
  destruct (proj1 (revokeToken_iff_stored oneToken "tok-user2" Hv oneToken_wf)
              oneToken_has) as (id & info & _ & _ & _ & _ & _ & Hsucc).
  apply Hsucc. unfold int64_max. simpl. lia.
Defined.

Lemma detectPrimary_two_passes_witness :
  AuthN.Smap tracking = Some oldMap
  ∧ AuthN.candidates "http://p1" oldMap = ["http://p2"] ++ "http://t1" :: []
  ∧ AuthN.GetClusterMap "http://t1" = inl newMap
  ∧ AuthN.detectPrimary tracking
    = (AuthN.mkProxy "http://p2" (Some newMap) "/tmp/proxy.json", None,
       [AuthN.EvGetClusterMap "http://p2"; AuthN.EvGetClusterMap "http://t1"]).
Proof.
  assert (HS : AuthN.Smap tracking = Some oldMap) by reflexivity.
  assert (Hc : AuthN.candidates (AuthN.Url tracking) oldMap
               = ["http://p2"] ++ "http://t1" :: []) by reflexivity.
  assert (Hg : AuthN.GetClusterMap "http://t1" = inl newMap) by reflexivity.
  split; [exact HS|]. split; [exact Hc|]. split; [exact Hg|].
  refine (proj1 (proj2 (detectPrimary_two_passes tracking) oldMap HS _)
            ["http://p2"] "http://t1" [] newMap Hc _ Hg _).
  - intros Hnil. discriminate Hnil.
  - constructor; [|constructor].
    intros Hother. exact (Hother eq_refl).
  - intros Hsame. discriminate Hsame.
Defined.

Lemma twoTokens_wf : wfMap (AuthN.tokens twoTokens).
Proof.
  apply NoDup_cons. split; [|apply NoDup_singleton].
  intros Hin. apply list_elem_of_singleton in Hin. discriminate Hin.
Defined.

Lemma sendTokensToProxy_snapshot_witness :
  wfMap (AuthN.tokens twoTokens)
  ∧ Dfc.Tokens (AuthN.snapshotTokens (λ _, 610%Z) twoTokens).2 = ["tok-user2"]
  ∧ AuthN.tokens (AuthN.snapshotTokens (λ _, 610%Z) twoTokens).1
    = [("user2", token2 630%Z)]
  ∧ Dfc.Version (AuthN.snapshotTokens (λ _, 610%Z) twoTokens).2 = 4%Z
  ∧ ∀ fuel, AuthN.sendTokensToProxy fuel (λ _, 610%Z) twoTokens
            = (AuthN.Returned, twoTokens, []).
Proof.
  split; [exact twoTokens_wf|].
  destruct (sendTokensToProxy_snapshot (λ _, 610%Z) twoTokens twoTokens_wf)
    as (Hver & _ & _ & _ & _ & _ & Hsteady & _ & Hempty).
  destruct (Hsteady 610%Z (λ _, eq_refl)) as [Hlist Htable].
  split; [exact Hlist|]. split; [exact Htable|]. split; [exact Hver|].
  apply Hempty. reflexivity.
Defined.

Lemma newUserManager_version_witness :
  AuthN.Stat "/tmp/users.json" = AuthN.StatOK
  ∧ AuthN.LocalLoadUsers "/tmp/users.json" = inl storedUsers
  ∧ AuthN.LocalLoadTokens ("/tmp/users.json" +:+ ".tokens")
    = inl (Dfc.mkTokenList ["tok-user1"; "tok-user3"] 7%Z)
  ∧ ∃ mgr, AuthN.newUserManager "/tmp/users.json" noProxy = AuthN.Started mgr
           ∧ AuthN.version mgr = 7%Z.
Proof.
  assert (H1 : AuthN.Stat "/tmp/users.json" = AuthN.StatOK) by reflexivity.
  assert (H2 : AuthN.LocalLoadUsers "/tmp/users.json" = inl storedUsers)
    by reflexivity.
  assert (H3 : AuthN.LocalLoadTokens ("/tmp/users.json" +:+ ".tokens")
               = inl (Dfc.mkTokenList ["tok-user1"; "tok-user3"] 7%Z))
    by reflexivity.
  repeat (split; [assumption|]).
  destruct (proj2 (proj2 (newUserManager_version "/tmp/users.json" noProxy)
                     storedUsers _ H1 H2 H3))
    as (mgr & Hmgr & Hv & _).
  - intros k info _. exists (AuthN.Password info). reflexivity.
  - exists mgr. split; [exact Hmgr | exact Hv].
Defined.

Lemma issueToken_mints_witness :
  Users oneToken !! "user2" = Some user2
  ∧ After (Expires (token2 630%Z)) 700%Z = false
  ∧ ∃ m', issueToken (λ _, 700%Z) oneToken "user2" "pass1" = (m', inl "tok-user2", true)
      ∧ rlookup "user2" (tokens m') = Some (mintedToken 700%Z "user2" "tok-user2")
      ∧ version m' = incr64 4%Z.
Proof.
  assert (H1 : Users oneToken !! "user2" = Some user2) by reflexivity.
  assert (H2 : After (Expires (token2 630%Z)) 700%Z = false) by reflexivity.
  split; [exact H1|]. split; [exact H2|].
  assert (H3 : ∀ token, rlookup "user2" (tokens oneToken) = Some token →
                 After (Expires token) 700%Z = false).
  { intros token Hl. injection Hl as <-. exact H2. }
  destruct (issueToken_mints (λ _, 700%Z) oneToken "user2" "pass1" user2
              H1 eq_refl H3) as [Hsigned _].
  destruct (Hsigned "tok-user2") as (m' & Hcall & Hlook & _ & Hver & _).
  { vm_compute. reflexivity. }
  exists m'. split; [exact Hcall|]. split; [exact Hlook | exact Hver].
Defined.

Lemma addUser_then_issueToken_witness :
  Users fresh !! "user1" = None
  ∧ ∃ m2, issueToken (λ _, 600%Z) (addUser fresh "user1" "pass2").1 "user1" "pass2"
          = (m2, inl "tok-user1", true)
      ∧ version m2 = incr64 1%Z.
Proof.
  assert (H1 : Users fresh !! "user1" = None) by reflexivity.
  split; [exact H1|].
  destruct (addUser_then_issueToken (λ _, 600%Z) fresh "user1" "pass2" H1
              ltac:(discriminate) ltac:(discriminate)) as [Hsigned _].
  destruct (Hsigned "tok-user1") as (m2 & Hcall & _ & Hver).
  { vm_compute. reflexivity. }
  exists m2. split; [exact Hcall | exact Hver].
Defined.

Lemma issueToken_twice_witness :
  issueToken (λ _, 610%Z) oneToken "user2" "pass1" = (oneToken, inl "tok-user2", false)
  ∧ ∃ token, rlookup "user2" (tokens oneToken) = Some token
      ∧ ∀ clk', After (Expires token) (clk' 0) = true →
          issueToken clk' oneToken "user2" "pass1" = (oneToken, inl "tok-user2", false).
Proof.
  assert (H1 : issueToken (λ _, 610%Z) oneToken "user2" "pass1"
               = (oneToken, inl "tok-user2", false)) by reflexivity.
  split; [exact H1|].
  destruct (issueToken_twice _ _ _ _ _ _ _ H1) as (token & Hl & _ & Hagain).
  exists token. split; [exact Hl | exact Hagain].
Defined.

Lemma oneToken_owner (entry : string * tokenInfo) :
  entry ∈ tokens oneToken → hasToken "tok-user2" entry → entry.1 = "user2".
Proof. intros Hin _. rewrite (oneToken_entries entry Hin). reflexivity. Defined.

Lemma issued_token_resolves_witness :
  wfMap (tokens oneToken)
  ∧ issueToken (λ _, 610%Z) oneToken "user2" "pass1" = (oneToken, inl "tok-user2", false)
  ∧ ∃ user token,
      Users oneToken !! "user2" = Some user
      ∧ rlookup "user2" (tokens oneToken) = Some token
      ∧ ∀ clk',
          (Before (Expires token) (clk' 0) = false →
           userByToken clk' oneToken "tok-user2" = (oneToken, inl user))
          ∧ (Before (Expires token) (clk' 0) = true →
             userByToken clk' oneToken "tok-user2"
             = (setTokens (rdelete "user2" (tokens oneToken)) oneToken,
                inr ErrTokenExpired)).
Proof.
  assert (H1 : issueToken (λ _, 610%Z) oneToken "user2" "pass1"
               = (oneToken, inl "tok-user2", false)) by reflexivity.
  split; [exact oneToken_wf|]. split; [exact H1|].
  exact (issued_token_resolves _ _ _ _ _ _ _ oneToken_wf H1 oneToken_owner).
Defined.

Lemma oneToken_unique (e1 e2 : string * tokenInfo) :
  e1 ∈ tokens oneToken → e2 ∈ tokens oneToken →
  hasToken "tok-user2" e1 → hasToken "tok-user2" e2 → e1 = e2.
Proof.
  intros H1 H2 _ _.
  rewrite (oneToken_entries e1 H1), (oneToken_entries e2 H2). reflexivity.
Defined.

Lemma revokeToken_then_lookup_witness :
  userByToken (λ _, 610%Z) (revokeToken oneToken "tok-user2").1 "tok-user2"
  = ((revokeToken oneToken "tok-user2").1, inr ErrTokenNotFound)
  ∧ revokeToken (revokeToken oneToken "tok-user2").1 "tok-user2"
    = ((revokeToken oneToken "tok-user2").1, false).
Proof.
  exact (revokeToken_then_lookup (λ _, 610%Z) oneToken "tok-user2" oneToken_unique).
Defined.

Lemma delUser_then_unknown_witness :
  is_Some (Users oneToken !! "user2")
  ∧ ∀ clk pwd, issueToken clk (delUser oneToken "user2").1.1 "user2" pwd
               = ((delUser oneToken "user2").1.1, inr ErrInvalidCredentials, false).
Proof.
  assert (H1 : is_Some (Users oneToken !! "user2")) by (exists user2; reflexivity).
  split; [exact H1|].
  destruct (delUser_then_unknown oneToken "user2" H1) as (_ & _ & _ & Hissue & _).
  exact Hissue.
Defined.

Lemma userByToken_frame_witness :
  (userByToken (λ _, 610%Z) oneToken "tok-user2").2 = inl user2
  ∧ (userByToken (λ _, 610%Z) oneToken "tok-user2").1 = oneToken.
Proof.
  assert (H1 : (userByToken (λ _, 610%Z) oneToken "tok-user2").2 = inl user2)
    by reflexivity.
  split; [exact H1|].
  destruct (userByToken_frame (λ _, 610%Z) oneToken "tok-user2")
    as (_ & _ & _ & Huser & _).
  exact (proj1 (Huser user2 H1)).
Defined.

Lemma detectPrimary_outcome_witness :
  (detectPrimary tracking).1.2 = None
  ∧ Url (detectPrimary tracking).1.1 ≠ Url tracking.
Proof.
  assert (H1 : (detectPrimary tracking).1.2 = None) by reflexivity.
  split; [exact H1|].
  destruct (detectPrimary_outcome tracking) as (_ & Hok & _).
  exact (proj1 (Hok H1)).
Defined.

Lemma deliver_outcome_witness :
  let tl := Dfc.mkTokenList ["tok-user2"] 4%Z in
  (deliver 1 tracking tl).1.1 = Returned
  ∧ (NewRequest (tokensURL (deliver 1 tracking tl).1.2) = false
     ∨ (deliveryFailed (Do (tokensURL (deliver 1 tracking tl).1.2) tl) = false
        ∧ last (deliver 1 tracking tl).2
          = Some (EvPost (tokensURL (deliver 1 tracking tl).1.2) tl))
     ∨ (deliveryFailed (Do (tokensURL (deliver 1 tracking tl).1.2) tl) = true
        ∧ (detectPrimary (deliver 1 tracking tl).1.2).1.2 ≠ None)).
Proof.
  intros tl.
  assert (H1 : (deliver 1 tracking tl).1.1 = Returned) by reflexivity.
  split; [exact H1|].
  exact (proj1 (deliver_outcome 1 tracking tl) H1).
Defined.

Lemma sendTokensToProxy_effects_witness :
  let r := sendTokensToProxy 2 (λ _, 610%Z) tracked in
  EvPost "http://p1/v1/tokens" (Dfc.mkTokenList ["tok-user2"] 4%Z) ∈ r.2
  ∧ Dfc.mkTokenList ["tok-user2"] 4%Z = (snapshotTokens (λ _, 610%Z) tracked).2.
Proof.
  intros r.
  assert (H1 : EvPost "http://p1/v1/tokens" (Dfc.mkTokenList ["tok-user2"] 4%Z) ∈ r.2).
  { apply elem_of_cons. right. apply elem_of_cons. left. reflexivity. }
  split; [exact H1|].
  destruct (sendTokensToProxy_effects 2 (λ _, 610%Z) tracked)
    as (_ & _ & _ & _ & Hposts & _).
  exact (Hposts _ _ H1).
Defined.

Lemma NewProxy_outcome_witness :
  LocalLoadProxy "/tmp/proxy.json" = inl ("http://p1", Some oldMap)
  ∧ ((NewProxy "/tmp/proxy.json" "http://p0").1
     = {| Url := "http://p0"; Smap := None; configPath := "/tmp/proxy.json" |}
     ∨ (Url (NewProxy "/tmp/proxy.json" "http://p0").1 ≠ "http://p1"
        ∧ ∃ found, Smap (NewProxy "/tmp/proxy.json" "http://p0").1 = Some found
            ∧ Url (NewProxy "/tmp/proxy.json" "http://p0").1
              = Dfc.DirectURL (Dfc.ProxySI found))).
Proof.
  assert (H1 : LocalLoadProxy "/tmp/proxy.json" = inl ("http://p1", Some oldMap))
    by reflexivity.
  split; [exact H1|].
  destruct (NewProxy_outcome "/tmp/proxy.json" "http://p0") as (_ & _ & Hload & _).
  exact (Hload _ _ H1).
Defined.

Lemma sample_claims_agree (k : string) :
  k ≠ "creds" →
  claimsOf "user2" (Some (Jwt.VObject [("aws", Jwt.VString "aws-01")])) !! k
  = tokenClaims 600%Z "user2" ∅ !! k.
Proof.
  intros Hk. unfold claimsOf, tokenClaims.
  rewrite lookup_insert_ne by (intros Heq; apply Hk; symmetry; exact Heq).
  destruct (decide (k = "username")) as [->|H1]; [reflexivity|].
  destruct (decide (k = "issued")) as [->|H2]; [reflexivity|].
  destruct (decide (k = "expires")) as [->|H3]; [reflexivity|].
  rewrite !lookup_insert_ne by (intros Heq; symmetry in Heq; contradiction).
  reflexivity.
Defined.

Lemma issued_token_decrypts_witness :
  Jwt.SignedString (tokenClaims 600%Z "user2" ∅) AuthSecret = inl "tok-user2"
  ∧ Jwt.parseRFC822 (Jwt.formatRFC822 600%Z) = Some 600%Z
  ∧ decryptToken "tok-user2" = inl (mintedToken 600%Z "user2" "tok-user2").
Proof.
  assert (H1 : Jwt.SignedString (tokenClaims 600%Z "user2" ∅) AuthSecret
               = inl "tok-user2") by (vm_compute; reflexivity).
  assert (H2 : Jwt.parseRFC822 (Jwt.formatRFC822 600%Z) = Some 600%Z) by reflexivity.
  assert (H3 : Jwt.parseRFC822 (Jwt.formatRFC822 (600 + ExpirePeriod)%Z)
               = Some (600 + ExpirePeriod)%Z) by reflexivity.
  split; [exact H1|]. split; [exact H2|].
  destruct (issued_token_decrypts 600%Z "user2" ∅ "tok-user2" _ _ 600%Z
              (600 + ExpirePeriod)%Z H1 eq_refl eq_refl eq_refl
              sample_claims_agree H2 H3) as (_ & _ & Hback).
  exact (Hback eq_refl eq_refl).
Defined.

Lemma newUserManager_admits_witness :
  ∃ mgr, newUserManager "/tmp/users.json" noProxy = Started mgr
    ∧ keyedByOwner (tokens mgr)
    ∧ ∀ entry, entry ∈ tokens mgr → decryptToken (Token entry.2) = inl entry.2.
Proof.
  assert (H1 : ∃ mgr, newUserManager "/tmp/users.json" noProxy = Started mgr).
  { eexists. vm_compute. reflexivity. }
  destruct H1 as [mgr H1]. exists mgr. split; [exact H1|].
  destruct (newUserManager_admits "/tmp/users.json" noProxy mgr H1) as (Hk & Hdec & _).
  split; [exact Hk|]. intros entry Hin. exact (proj1 (Hdec entry Hin)).
Defined.

Lemma afterAll_tokens_have_owners_witness :
  let cs := [CallAddUser "user1" "pass2";
             CallIssueToken (λ _, 600%Z) "user1" "pass2";
             CallDelUser "user1"] in
  keyedByOwner (tokens fresh)
  ∧ ownersRegistered fresh
  ∧ ∀ clk token, (userByToken clk (afterAll cs fresh) token).2 ≠ inr ErrInvalidToken.
Proof.
  intros cs.
  assert (H1 : keyedByOwner (tokens fresh)).
  { split; [apply NoDup_nil_2|]. intros entry Hin. apply elem_of_nil in Hin. destruct Hin. }
  assert (H2 : ownersRegistered fresh).
  { intros entry Hin. apply elem_of_nil in Hin. destruct Hin. }
  split; [exact H1|]. split; [exact H2|].
  exact (proj2 (proj2 (afterAll_tokens_have_owners cs fresh H1 H2))).
Defined.

Lemma afterAll_version_witness :
  let cs := [CallAddUser "user1" "pass2";
             CallIssueToken (λ _, 600%Z) "user1" "pass2";
             CallRevokeToken "tok-user1"] in
  is_int64 (version fresh)
  ∧ (version fresh ≤ version (afterAll cs fresh) ≤ version fresh + 3)%Z.
Proof.
  intros cs.
  assert (H1 : is_int64 (version fresh))
    by (unfold is_int64, int64_min, int64_max; simpl; lia).
  split; [exact H1|].
  apply (afterAll_version cs fresh H1).
  unfold int64_max. simpl. lia.
Defined.

End sample_runs.

Section sample_table_runs.
Import DfcAuth DfcAuth.Sample.
#[local] Existing Instance AuthN.Sample.lib.

Lemma validateToken_outcome_witness :
  tokens table !! "tok-user2" = Some rec2
  ∧ Before (Dfc.expires rec2) 700%Z = true
  ∧ (validateToken (λ _, 700%Z) table "tok-user2").2 = inr ErrTokenExpired
  ∧ ∀ clk', validateToken clk' (validateToken (λ _, 700%Z) table "tok-user2").1
              "tok-user2"
            = ((validateToken (λ _, 700%Z) table "tok-user2").1, inr ErrTokenNotFound).
Proof.
  assert (H1 : tokens table !! "tok-user2" = Some rec2) by reflexivity.
  assert (H2 : Before (Dfc.expires rec2) 700%Z = true) by reflexivity.
  split; [exact H1|]. split; [exact H2|].
  destruct (validateToken_outcome (λ _, 700%Z) table "tok-user2")
    as (_ & _ & _ & _ & Hexp).
  destruct (Hexp rec2 H1 H2) as (Herr & _ & Hagain).
  split; [exact Herr | exact Hagain].
Defined.

Lemma pushed_token_validates_witness :
  let tl := Dfc.mkTokenList ["tok-user2"] 5%Z in
  Dfc.newAuthList "secret" (Some tl) = (Some (tokens table), 5%Z, None)
  ∧ validateToken (λ _, 610%Z) table "tok-user1" = (table, inr ErrTokenNotFound).
Proof.
  intros tl.
  assert (H1 : Dfc.newAuthList "secret" (Some tl) = (Some (tokens table), 5%Z, None))
    by reflexivity.
  split; [exact H1|].
  apply (proj1 (pushed_token_validates "secret" tl (tokens table) 5%Z
                  (λ _, 610%Z) "tok-user1" H1)).
  intros Hin. apply list_elem_of_singleton in Hin. discriminate Hin.
Defined.

Lemma table_decrypts (t : string) (rec : Dfc.authRec) :
  tokens table !! t = Some rec → Dfc.decryptToken "secret" t = inl rec.
Proof.
  intros Hl. destruct (decide (t = "tok-user2")) as [->|Hne].
  - injection Hl as <-. reflexivity.
  - unfold table in Hl. simpl in Hl.
    rewrite lookup_insert_ne in Hl by (intros Heq; apply Hne; symmetry; exact Heq).
    rewrite lookup_empty in Hl. discriminate Hl.
Defined.

Lemma cloneL_newAuthList_witness :
  tokens table ≠ ∅
  ∧ Dfc.newAuthList "secret" (Some (cloneL table))
    = (Some (tokens table), tokensVersion table, None).
Proof.
  assert (H1 : tokens table ≠ ∅).
  { intros Heq. assert (H2 : tokens table !! "tok-user2" = None)
      by (rewrite Heq; apply lookup_empty).
    discriminate H2. }
  split; [exact H1|].
  apply (proj1 (cloneL_newAuthList "secret" table (cloneL table)
                  table_decrypts (reflexivity _) eq_refl) H1).
Defined.

End sample_table_runs.

Section bad_day_runs.
Import AuthN AuthN.Sample.

Lemma deliver_failover_witness :
  let tl := Dfc.mkTokenList ["tok-user2"] 4%Z in
  @deliver lossy 2 tracking tl
  = (Returned, adopt newMap tracking,
     [EvPost "http://p1/v1/tokens" tl;
      EvGetClusterMap "http://p2"; EvGetClusterMap "http://t1";
      EvSaveSmap "/tmp/proxy.json" (adopt newMap tracking);
      EvPost "http://p2/v1/tokens" tl]).
Proof.
  intros tl.
  exact (@deliver_failover lossy 0 tracking tl newMap
           [EvGetClusterMap "http://p2"; EvGetClusterMap "http://t1"]
           eq_refl eq_refl eq_refl eq_refl eq_refl).
Defined.

Lemma newUserManager_fatal_witness :
  @Stat lossy "/tmp/users.json" = StatOK
  ∧ @newUserManager lib lossy "/tmp/users.json" noProxy
    = Started {| Path := "/tmp/users.json";
                 Users := @decodePassword lossy <$> storedUsers;
                 tokens := []; version := 1; mproxy := noProxy |}.
Proof.
  assert (H1 : @Stat lossy "/tmp/users.json" = StatOK) by reflexivity.
  split; [exact H1|].
  apply (proj2 (@newUserManager_fatal lib lossy "/tmp/users.json" noProxy)
           storedUsers (ErrLibrary "unexpected end of JSON input") H1 eq_refl eq_refl).
  intros k info _. exists (Password info). reflexivity.
Defined.

Lemma addUser_save_failure_witness :
  Users fresh !! "user1" = None
  ∧ (@addUser lossy fresh "user1" "pass2").2
    = Some (ErrSaveUsers "no space left on device")
  ∧ @addUser lossy (@addUser lossy fresh "user1" "pass2").1 "user1" "pass2"
    = ((@addUser lossy fresh "user1" "pass2").1, Some (ErrAlreadyRegistered "user1")).
Proof.
  assert (H1 : Users fresh !! "user1" = None) by reflexivity.
  split; [exact H1|].
  destruct (@addUser_save_failure lossy fresh "user1" "pass2"
              (ErrLibrary "no space left on device") H1
              ltac:(discriminate) ltac:(discriminate) eq_refl)
    as (Herr & _ & _ & Hagain).
  split; [exact Herr | exact Hagain].
Defined.

(** C8 as first stated does not hold: a persisted token file alone does
    not restore the version.  With the token file at version 7 and no user
    file, [newUserManager] returns before it reads the token file, and the
    manager starts at version 1 with no tokens. *)
Lemma newUserManager_ignores_orphan_token_file :
  @LocalLoadTokens orphaned ("/tmp/users.json" +:+ ".tokens")
    = inl (Dfc.mkTokenList ["tok-user1"] 7%Z)
  ∧ @newUserManager lib orphaned "/tmp/users.json" noProxy
    = Started {| Path := "/tmp/users.json"; Users := ∅; tokens := [];
                 version := 1; mproxy := noProxy |}
  ∧ ¬ (∀ mgr tokenList,
         @newUserManager lib orphaned "/tmp/users.json" noProxy = Started mgr →
         @LocalLoadTokens orphaned ("/tmp/users.json" +:+ ".tokens") = inl tokenList →
         version mgr = Dfc.Version tokenList).
Proof.
  split; [reflexivity|]. split; [reflexivity|].
  intros Hrestored.
  specialize (Hrestored _ _ eq_refl eq_refl). discriminate Hrestored.
Qed.

End bad_day_runs.
